(** * BatchingChannel: a shallow embedding of [batching_channel.go]

    The Go source has one goroutine, [batchingBuffer], that owns the slice
    [ch.buffer] and talks to the rest of the program over three unbuffered
    channels ([ch.input], [ch.output], [ch.length]).  The embedding keeps that
    shape:

    - a slice is [option (list V)], [None] being Go's [nil] slice;
    - the goroutine's locals [input], [output], [nextInput] are
      [option chan] ([None] is a [nil] channel, never selectable);
    - one pass through the body of the [for] loop is the function
      [iteration], indexed by the [select] case that was committed;
    - the callers' operations ([ch.In() <- v], [<-ch.Out()], [ch.Len()],
      [ch.Close()]) are functions on the state that either return, block
      or panic, following the semantics of unbuffered Go channels
      (rendezvous; receive from a closed channel yields the zero value and
      [false]; send on or close of a closed channel panics). *)

From Stdlib Require Import ZArith List Bool String Lia.
Import ListNotations.
Local Open Scope Z_scope.

(** ** Capacities *)

(** [type BufferCap int] *)
Definition BufferCap := Z.

Module BufferCaps.

(** Modelled from the spec: the constant [None] of type [BufferCap] is
    declared in a file of the package that is not part of the sources at
    hand; the spec calls it the zero/unbuffered capacity. *)
Definition None : BufferCap := 0.

(** Modelled from the spec: the constant [Infinity] of type [BufferCap] is
    declared in the same missing file; the spec calls it the unbounded
    sentinel and says it is a negative value.  The proofs below use only
    that it is negative. *)
Definition Infinity : BufferCap := -1.

End BufferCaps.

(** ** Channels and the program counter of the goroutine *)

(** The three channels made by [NewBatchingChannel]. *)
Inductive chan := ch_input | ch_output | ch_length.

(** Where [batchingBuffer] stands: blocked in the [select] of line 63, about
    to run [close(ch.output)] (line 94), about to run [close(ch.length)]
    (line 95), returned, or stopped by a run-time panic. *)
Inductive pc := at_select | at_close_output | at_close_length | returned | panicked.

(** What a caller's operation does: it completes with a value in a new
    state, it cannot proceed in this state, or it panics in the caller. *)
Inductive outcome (S A : Type) :=
| Returns (st : S) (a : A)
| Blocks
| Panics (msg : string).
Arguments Returns {S A} st a.
Arguments Blocks {S A}.
Arguments Panics {S A} msg.

Section BatchingChannel.

(** The payload, [interface{}] in the source. *)
Variable V : Type.

(** ** Slices *)

(** [[]interface{}]: [None] is the [nil] slice. *)
Definition slice := option (list V).

Definition len (s : slice) : Z :=
  match s with
  | None => 0
  | Some l => Z.of_nat (List.length l)
  end.

(** [append(s, e)]: appending to a [nil] slice allocates. *)
Definition append (s : slice) (e : V) : slice :=
  match s with
  | None => Some [e]
  | Some l => Some (l ++ [e])
  end.

(** The values a slice holds, for stating properties. *)
Definition elems (s : slice) : list V :=
  match s with
  | None => []
  | Some l => l
  end.

(** ** The state *)

(** The struct [BatchingChannel] ([buffer], [size]; its three channels are
    the constants of [chan], of which only the closed flag is state),
    together with the locals of the goroutine. *)
Record state := mkState {
  buffer : slice;
  size : BufferCap;
  input_closed : bool;
  output_closed : bool;
  length_closed : bool;
  input : option chan;
  output : option chan;
  nextInput : option chan;
  at_pc : pc
}.

Definition is_closed (st : state) (c : chan) : bool :=
  match c with
  | ch_input => input_closed st
  | ch_output => output_closed st
  | ch_length => length_closed st
  end.

Definition set_buffer (b : slice) (st : state) : state :=
  mkState b (size st) (input_closed st) (output_closed st) (length_closed st)
          (input st) (output st) (nextInput st) (at_pc st).

Definition set_input (c : option chan) (st : state) : state :=
  mkState (buffer st) (size st) (input_closed st) (output_closed st) (length_closed st)
          c (output st) (nextInput st) (at_pc st).

Definition set_output (c : option chan) (st : state) : state :=
  mkState (buffer st) (size st) (input_closed st) (output_closed st) (length_closed st)
          (input st) c (nextInput st) (at_pc st).

Definition set_nextInput (c : option chan) (st : state) : state :=
  mkState (buffer st) (size st) (input_closed st) (output_closed st) (length_closed st)
          (input st) (output st) c (at_pc st).

Definition set_pc (p : pc) (st : state) : state :=
  mkState (buffer st) (size st) (input_closed st) (output_closed st) (length_closed st)
          (input st) (output st) (nextInput st) p.

(** [close(c)] on a channel that is open. *)
Definition close_chan (c : chan) (st : state) : state :=
  match c with
  | ch_input =>
      mkState (buffer st) (size st) true (output_closed st) (length_closed st)
              (input st) (output st) (nextInput st) (at_pc st)
  | ch_output =>
      mkState (buffer st) (size st) (input_closed st) true (length_closed st)
              (input st) (output st) (nextInput st) (at_pc st)
  | ch_length =>
      mkState (buffer st) (size st) (input_closed st) (output_closed st) true
              (input st) (output st) (nextInput st) (at_pc st)
  end.

(** ** The loop of [batchingBuffer] *)

(** The communication a [select] commits to. *)
Inductive select_case :=
| recv_open (elem : V)   (* case elem, open := <-input, with open = true  *)
| recv_closed             (* case elem, open := <-input, with open = false *)
| send_buffer             (* case output <- ch.buffer *)
| send_length.            (* case ch.length <- len(ch.buffer) *)

(** Lines 65-77: the body of the committed case. *)
Definition select_commit (c : select_case) (st : state) : state :=
  match c with
  | recv_open elem => set_buffer (append (buffer st) elem) st
  | recv_closed => set_nextInput None (set_input None st)
  | send_buffer => set_buffer None st
  | send_length => st
  end.

(** Lines 80-90: which channels the next [select] offers. *)
Definition readiness (st : state) : state :=
  if len (buffer st) =? 0 then
    set_output None (set_input (nextInput st) st)
  else if negb (size st =? BufferCaps.Infinity) && (len (buffer st) >=? size st) then
    set_output (Some ch_output) (set_input None st)
  else
    set_output (Some ch_output) (set_input (nextInput st) st).

(** Line 62: [input != nil || output != nil]. *)
Definition loop_cond (st : state) : bool :=
  match input st, output st with
  | None, None => false
  | _, _ => true
  end.

(** Evaluating the condition of the [for]: into the [select], or out of the
    loop to line 94. *)
Definition loop_head (st : state) : state :=
  if loop_cond st then set_pc at_select st else set_pc at_close_output st.

(** A send that a [select] commits to on a closed channel panics. *)
Definition faults (c : select_case) (st : state) : bool :=
  match c with
  | send_buffer =>
      match output st with
      | Some o => is_closed st o
      | None => false
      end
  | send_length => length_closed st
  | _ => false
  end.

(** One pass through the body of the loop, then the loop condition. *)
Definition iteration (c : select_case) (st : state) : state :=
  if faults c st then set_pc panicked st
  else loop_head (readiness (select_commit c st)).

(** Can the [select] commit to [c] with no caller taking part?  Only
    operations on a closed channel are like that. *)
Definition self_ready (c : select_case) (st : state) : bool :=
  match c with
  | recv_open _ => false
  | recv_closed =>
      match input st with
      | Some i => is_closed st i
      | None => false
      end
  | send_buffer =>
      match output st with
      | Some o => is_closed st o
      | None => false
      end
  | send_length => length_closed st
  end.

(** A step the goroutine takes by itself: a [select] case on a closed
    channel. *)
Definition loop_select (c : select_case) (st : state) : outcome state unit :=
  match at_pc st with
  | at_select =>
      if self_ready c st then Returns (iteration c st) tt else Blocks
  | _ => Blocks
  end.

(** A step the goroutine takes by itself: lines 94 and 95. *)
Definition loop_exit (st : state) : outcome state unit :=
  match at_pc st with
  | at_close_output =>
      if output_closed st then Returns (set_pc panicked st) tt
      else Returns (set_pc at_close_length (close_chan ch_output st)) tt
  | at_close_length =>
      if length_closed st then Returns (set_pc panicked st) tt
      else Returns (set_pc returned (close_chan ch_length st)) tt
  | _ => Blocks
  end.

(** Lines 56-59 and the first evaluation of the loop condition. *)
Definition batchingBuffer (st : state) : state :=
  loop_head (set_input (Some ch_input) (set_nextInput (Some ch_input) st)).

(** ** The exported operations *)

(** Lines 13-28.  The new struct has a [nil] buffer and three open
    channels; the goroutine is started. *)
Definition NewBatchingChannel (sz : BufferCap) : outcome state unit :=
  if sz =? BufferCaps.None then
    Panics "channels: BatchingChannel does not support unbuffered behaviour"
  else if (sz <? 0) && negb (sz =? BufferCaps.Infinity) then
    Panics "channels: invalid negative size in NewBatchingChannel"
  else
    Returns (batchingBuffer
               (mkState None sz false false false None None None at_select)) tt.

(** [ch.In() <- v]: a send on [ch.input].  It completes when the loop is in
    its [select] with [input] being that channel. *)
Definition In_send (v : V) (st : state) : outcome state unit :=
  if input_closed st then Panics "send on closed channel"
  else
    match at_pc st, input st with
    | at_select, Some ch_input => Returns (iteration (recv_open v) st) tt
    | _, _ => Blocks
    end.

(** [v, ok := <-ch.Out()]: a receive on [ch.output]. *)
Definition Out_recv (st : state) : outcome state (slice * bool) :=
  if output_closed st then Returns st (None, false)
  else
    match at_pc st, output st with
    | at_select, Some ch_output =>
        Returns (iteration send_buffer st) (buffer st, true)
    | _, _ => Blocks
    end.

(** Lines 43-45: [<-ch.length]. *)
Definition Len (st : state) : outcome state Z :=
  if length_closed st then Returns st 0
  else
    match at_pc st with
    | at_select => Returns (iteration send_length st) (len (buffer st))
    | _ => Blocks
    end.

(** Lines 47-49. *)
Definition Cap (st : state) : BufferCap := size st.

(** Lines 51-53: [close(ch.input)]. *)
Definition Close (st : state) : outcome state unit :=
  if input_closed st then Panics "close of closed channel"
  else Returns (close_chan ch_input st) tt.

(** ** Executions *)

Inductive action :=
| a_send (v : V)
| a_recv
| a_len
| a_close
| a_select (c : select_case)
| a_exit.

Inductive obs :=
| o_unit
| o_batch (b : slice) (ok : bool)
| o_len (n : Z).

Definition exec (a : action) (st : state) : outcome state obs :=
  match a with
  | a_send v =>
      match In_send v st with
      | Returns st' _ => Returns st' o_unit
      | Blocks => Blocks
      | Panics m => Panics m
      end
  | a_recv =>
      match Out_recv st with
      | Returns st' (b, ok) => Returns st' (o_batch b ok)
      | Blocks => Blocks
      | Panics m => Panics m
      end
  | a_len =>
      match Len st with
      | Returns st' n => Returns st' (o_len n)
      | Blocks => Blocks
      | Panics m => Panics m
      end
  | a_close =>
      match Close st with
      | Returns st' _ => Returns st' o_unit
      | Blocks => Blocks
      | Panics m => Panics m
      end
  | a_select c =>
      match loop_select c st with
      | Returns st' _ => Returns st' o_unit
      | Blocks => Blocks
      | Panics m => Panics m
      end
  | a_exit =>
      match loop_exit st with
      | Returns st' _ => Returns st' o_unit
      | Blocks => Blocks
      | Panics m => Panics m
      end
  end.

(** A schedule: the actions complete one after the other. *)
Fixpoint run (tr : list action) (st : state) : outcome state (list obs) :=
  match tr with
  | [] => Returns st []
  | a :: tr' =>
      match exec a st with
      | Returns st1 o =>
          match run tr' st1 with
          | Returns st2 os => Returns st2 (o :: os)
          | Blocks => Blocks
          | Panics m => Panics m
          end
      | Blocks => Blocks
      | Panics m => Panics m
      end
  end.

(** A schedule from construction with capacity [sz]. *)
Definition run_new (sz : BufferCap) (tr : list action) : outcome state (list obs) :=
  match NewBatchingChannel sz with
  | Returns st _ => run tr st
  | Blocks => Blocks
  | Panics m => Panics m
  end.

(** The values the schedule submits, in order. *)
Fixpoint sent (tr : list action) : list V :=
  match tr with
  | [] => []
  | a_send v :: tr' => v :: sent tr'
  | _ :: tr' => sent tr'
  end.

(** The batches the schedule's receives got before end-of-stream, in
    order. *)
Fixpoint batches (os : list obs) : list (list V) :=
  match os with
  | [] => []
  | o_batch b true :: os' => elems b :: batches os'
  | _ :: os' => batches os'
  end.

(** A reader that keeps receiving from [ch.Out()], at most [fuel] times:
    the batches it gets until a receive blocks or reports end-of-stream. *)
Fixpoint drain (fuel : nat) (st : state) : list slice * state :=
  match fuel with
  | O => ([], st)
  | S k =>
      match Out_recv st with
      | Returns st' (b, true) =>
          let (bs, st'') := drain k st' in (b :: bs, st'')
      | _ => ([], st)
      end
  end.

(** The values [l] are submitted one after the other to a new channel of
    capacity [Infinity], all the submits complete with no batch delivered
    meanwhile, and a reader that then drains gets exactly the one batch
    [l], whatever number of receives it is ready to make. *)
Definition one_batch (l : list V) : Prop :=
  exists st os,
    run_new BufferCaps.Infinity (map a_send l) = Returns st os /\
    batches os = [] /\
    forall n, exists st', drain (S n) st = ([Some l], st') /\ buffer st' = None.

(** The goroutine running with no caller around, at most [fuel] steps: it
    can only see that [ch.input] is closed, or run the two [close]
    statements. *)
Fixpoint loop_alone (fuel : nat) (st : state) : state :=
  match fuel with
  | O => st
  | S k =>
      match at_pc st with
      | at_select =>
          match loop_select recv_closed st with
          | Returns st' _ => loop_alone k st'
          | _ => st
          end
      | _ =>
          match loop_exit st with
          | Returns st' _ => loop_alone k st'
          | _ => st
          end
      end
  end.

(** What a caller does to shut the channel down from [st]: [Close()] unless
    [ch.input] is closed already, then one receive when values wait. *)
Definition shutdown_calls (st : state) : list action :=
  (if input_closed st then [] else [a_close]) ++
  (if 0 <? len (buffer st) then [a_recv] else []).

(** ** The invariant of the loop *)

Definition bounded (st : state) : bool := negb (size st =? BufferCaps.Infinity).

Record Inv (st : state) : Prop := mkInv {
  inv_size : size st = BufferCaps.Infinity \/ 0 < size st;
  inv_slice : buffer st <> Some [];
  inv_bound : size st <> BufferCaps.Infinity -> len (buffer st) <= size st;
  inv_next :
    nextInput st = Some ch_input \/ (nextInput st = None /\ input_closed st = true);
  inv_select :
    at_pc st = at_select ->
    output_closed st = false /\ length_closed st = false /\
    output st = (if len (buffer st) =? 0 then None else Some ch_output) /\
    input st =
      (if len (buffer st) =? 0 then nextInput st
       else if bounded st && (len (buffer st) >=? size st) then None
       else nextInput st) /\
    loop_cond st = true;
  inv_exit :
    at_pc st <> at_select ->
    buffer st = None /\ input st = None /\ output st = None /\
    nextInput st = None /\
    match at_pc st with
    | at_select => True
    | at_close_output => output_closed st = false /\ length_closed st = false
    | at_close_length => output_closed st = true /\ length_closed st = false
    | returned => output_closed st = true /\ length_closed st = true
    | panicked => False
    end
}.

(** What the second half of an iteration (lines 80-90, then the loop
    condition) needs in order to establish the invariant. *)
Record Pre (st : state) : Prop := mkPre {
  pre_size : size st = BufferCaps.Infinity \/ 0 < size st;
  pre_slice : buffer st <> Some [];
  pre_bound : size st <> BufferCaps.Infinity -> len (buffer st) <= size st;
  pre_next :
    nextInput st = Some ch_input \/ (nextInput st = None /\ input_closed st = true);
  pre_output : output_closed st = false;
  pre_length : length_closed st = false
}.

(** ** Basic facts *)

Lemma Infinity_negative : BufferCaps.Infinity < 0.
Proof. unfold BufferCaps.Infinity; lia. Qed.

Lemma len_nonneg (s : slice) : 0 <= len s.
Proof. destruct s; simpl; lia. Qed.

Lemma len_append (s : slice) (e : V) : len (append s e) = len s + 1.
Proof.
  destruct s as [l|]; simpl; [|reflexivity].
  rewrite length_app; simpl; lia.
Qed.

Lemma append_not_empty (s : slice) (e : V) : append s e <> Some [].
Proof.
  destruct s as [l|]; simpl; [|discriminate].
  intros H; injection H as H. destruct l; discriminate.
Qed.

Lemma elems_append (s : slice) (e : V) : elems (append s e) = elems s ++ [e].
Proof. destruct s; reflexivity. Qed.

Lemma len_zero_nil (s : slice) : s <> Some [] -> len s = 0 -> s = None.
Proof.
  destruct s as [[|x l]|]; simpl; intros H H0; try reflexivity; [congruence | lia].
Qed.

(** ** The invariant holds along every schedule *)

Ltac arith :=
  repeat match goal with
  | H : (_ =? _) = true |- _ => apply Z.eqb_eq in H
  | H : (_ =? _) = false |- _ => apply Z.eqb_neq in H
  | H : (_ >=? _) = true |- _ => apply Z.geb_le in H
  | H : (_ >=? _) = false |- _ => rewrite Z.geb_leb in H; apply Z.leb_gt in H
  | H : (_ <? _) = true |- _ => apply Z.ltb_lt in H
  | H : (_ <? _) = false |- _ => apply Z.ltb_ge in H
  | H : negb _ = true |- _ => apply negb_true_iff in H
  | H : negb _ = false |- _ => apply negb_false_iff in H
  | H : _ && _ = true |- _ => apply andb_true_iff in H; destruct H
  end.

Lemma Inv_loop_head_readiness (st : state) :
  Pre st -> Inv (loop_head (readiness st)).
Proof.
  intros [Hsz Hsl Hb Hn Hoc Hlc].
  pose proof (len_nonneg (buffer st)) as Hlen.
  destruct st as [b sz ic oc lc i o ni p]; simpl in *; subst.
  unfold loop_head, readiness; simpl.
  destruct (len b =? 0) eqn:E0; simpl.
  - (* the buffer is empty *)
    apply Z.eqb_eq in E0. pose proof (len_zero_nil b Hsl E0) as Hnil.
    destruct Hn as [Hn | [Hn Hic]]; subst ni; cbn.
    + constructor; cbn; intros; rewrite ?E0; cbn; intuition congruence.
    + constructor; cbn; intros; rewrite ?E0; cbn; intuition congruence.
  - (* the buffer holds something *)
    apply Z.eqb_neq in E0.
    destruct (negb (sz =? BufferCaps.Infinity) && (len b >=? sz)) eqn:E1; cbn.
    + constructor; cbn; intros; unfold bounded; cbn;
        rewrite ?E1; rewrite ?(proj2 (Z.eqb_neq _ _) E0); intuition congruence.
    + destruct ni; cbn;
        constructor; cbn; intros; unfold bounded; cbn;
        rewrite ?E1; rewrite ?(proj2 (Z.eqb_neq _ _) E0); intuition congruence.
Qed.

Lemma Inv_room (st : state) :
  Inv st -> at_pc st = at_select -> input st <> None ->
  size st <> BufferCaps.Infinity -> len (buffer st) < size st.
Proof.
  intros [Hsz Hsl Hb Hn Hs He] Hpc Hin Hfin.
  destruct (Hs Hpc) as (_ & _ & _ & Hinp & _).
  unfold bounded in Hinp.
  destruct (len (buffer st) =? 0) eqn:E0; arith.
  - destruct Hsz; [congruence | lia].
  - destruct (size st =? BufferCaps.Infinity) eqn:E1; arith; [congruence|].
    cbn in Hinp.
    destruct (len (buffer st) >=? size st) eqn:E2; arith; [congruence | lia].
Qed.

Lemma Pre_recv_open (st : state) (v : V) :
  Inv st -> at_pc st = at_select -> input st <> None ->
  Pre (select_commit (recv_open v) st).
Proof.
  intros HI Hpc Hin.
  pose proof (Inv_room st HI Hpc Hin) as Hroom.
  destruct HI as [Hsz Hsl Hb Hn Hs He].
  destruct (Hs Hpc) as (Hoc & Hlc & _).
  constructor; cbn; auto using append_not_empty.
  rewrite len_append. intros Hfin. specialize (Hroom Hfin). lia.
Qed.

Lemma Pre_recv_closed (st : state) (i : chan) :
  Inv st -> at_pc st = at_select -> input st = Some i -> is_closed st i = true ->
  Pre (select_commit recv_closed st).
Proof.
  intros [Hsz Hsl Hb Hn Hs He] Hpc Hin Hcl.
  destruct (Hs Hpc) as (Hoc & Hlc & _ & Hinp & _).
  assert (Hi : input st = nextInput st).
  { rewrite Hinp in Hin |- *.
    destruct (len (buffer st) =? 0); [reflexivity|].
    destruct (bounded st && (len (buffer st) >=? size st)); [discriminate | reflexivity]. }
  constructor; cbn; auto.
  right; split; [reflexivity|].
  destruct Hn as [Hn | [Hn Hic]]; [|exact Hic].
  assert (i = ch_input) by congruence. subst i. exact Hcl.
Qed.

Lemma Pre_send_buffer (st : state) :
  Inv st -> at_pc st = at_select -> Pre (select_commit send_buffer st).
Proof.
  intros [Hsz Hsl Hb Hn Hs He] Hpc.
  destruct (Hs Hpc) as (Hoc & Hlc & _).
  constructor; cbn; auto; try discriminate.
  intros Hfin. destruct Hsz as [Hsz | Hsz]; [congruence | lia].
Qed.

Lemma Pre_send_length (st : state) :
  Inv st -> at_pc st = at_select -> Pre (select_commit send_length st).
Proof.
  intros [Hsz Hsl Hb Hn Hs He] Hpc.
  destruct (Hs Hpc) as (Hoc & Hlc & _).
  constructor; cbn; auto.
Qed.

(** In the [select] the loop never offers a send on a closed channel. *)
Lemma Inv_no_fault (st : state) (c : select_case) :
  Inv st -> at_pc st = at_select -> faults c st = false.
Proof.
  intros [Hsz Hsl Hb Hn Hs He] Hpc.
  destruct (Hs Hpc) as (Hoc & Hlc & Hout & _).
  destruct c; cbn; auto.
  rewrite Hout. destruct (len (buffer st) =? 0); cbn; auto.
Qed.

Lemma Inv_iteration (st : state) (c : select_case) :
  Inv st -> at_pc st = at_select ->
  Pre (select_commit c st) -> Inv (iteration c st).
Proof.
  intros HI Hpc HP. unfold iteration.
  rewrite (Inv_no_fault st c HI Hpc).
  now apply Inv_loop_head_readiness.
Qed.

Lemma Inv_new (sz : BufferCap) (st : state) :
  NewBatchingChannel sz = Returns st tt -> Inv st.
Proof.
  unfold NewBatchingChannel.
  destruct (sz =? BufferCaps.None) eqn:E0; [discriminate|].
  destruct ((sz <? 0) && negb (sz =? BufferCaps.Infinity)) eqn:E1; [discriminate|].
  intros H; injection H as <-.
  assert (Hsz : sz = BufferCaps.Infinity \/ 0 < sz).
  { unfold BufferCaps.None in E0. apply Z.eqb_neq in E0.
    apply andb_false_iff in E1. destruct E1 as [E1 | E1]; arith; [lia | auto]. }
  cbn. constructor; cbn; intros; try discriminate; auto.
  - destruct Hsz; [congruence | lia].
  - exfalso; auto.
Qed.

(** *** When the operations return *)

Lemma In_send_returns (v : V) (st st' : state) (u : unit) :
  In_send v st = Returns st' u ->
  input_closed st = false /\ at_pc st = at_select /\
  input st = Some ch_input /\ st' = iteration (recv_open v) st.
Proof.
  unfold In_send. destruct (input_closed st); [discriminate|].
  destruct (at_pc st); try discriminate.
  destruct (input st) as [[| |]|]; try discriminate.
  intros H; injection H as <-. auto.
Qed.

Lemma Out_recv_returns (st st' : state) (b : slice) (ok : bool) :
  Out_recv st = Returns st' (b, ok) ->
  (ok = true /\ output_closed st = false /\ at_pc st = at_select /\
   output st = Some ch_output /\ st' = iteration send_buffer st /\ b = buffer st)
  \/ (ok = false /\ output_closed st = true /\ st' = st /\ b = None).
Proof.
  unfold Out_recv. destruct (output_closed st).
  - intros H; injection H as <- <- <-. right; auto.
  - destruct (at_pc st); try discriminate.
    destruct (output st) as [[| |]|]; try discriminate.
    intros H; injection H as <- <- <-. left; repeat split; auto.
Qed.

Lemma Len_returns (st st' : state) (n : Z) :
  Len st = Returns st' n ->
  (length_closed st = false /\ at_pc st = at_select /\
   st' = iteration send_length st /\ n = len (buffer st))
  \/ (length_closed st = true /\ st' = st /\ n = 0).
Proof.
  unfold Len. destruct (length_closed st).
  - intros H; injection H as <- <-. right; auto.
  - destruct (at_pc st); try discriminate.
    intros H; injection H as <- <-. left; auto.
Qed.

Lemma Close_returns (st st' : state) (u : unit) :
  Close st = Returns st' u ->
  input_closed st = false /\ st' = close_chan ch_input st.
Proof.
  unfold Close. destruct (input_closed st); [discriminate|].
  intros H; injection H as <-. auto.
Qed.

Lemma loop_select_returns (c : select_case) (st st' : state) (u : unit) :
  loop_select c st = Returns st' u ->
  at_pc st = at_select /\ self_ready c st = true /\ st' = iteration c st.
Proof.
  unfold loop_select. destruct (at_pc st); try discriminate.
  destruct (self_ready c st); [|discriminate].
  intros H; injection H as <-. auto.
Qed.

(** *** Each step keeps the invariant *)

Lemma Inv_Close (st : state) : Inv st -> Inv (close_chan ch_input st).
Proof.
  intros [Hsz Hsl Hb Hn Hs He].
  constructor; cbn; auto.
  destruct Hn as [Hn | [Hn _]]; auto.
Qed.

Lemma Inv_loop_select (c : select_case) (st st' : state) (u : unit) :
  Inv st -> loop_select c st = Returns st' u -> Inv st'.
Proof.
  intros HI H. apply loop_select_returns in H as (Hpc & Hr & ->).
  pose proof (Inv_no_fault st c HI Hpc) as Hf.
  apply Inv_iteration; auto.
  destruct c; cbn in Hr, Hf; try congruence.
  destruct (input st) as [i|] eqn:Hi; [|discriminate].
  now apply Pre_recv_closed with i.
Qed.

Lemma Inv_loop_exit (st st' : state) (u : unit) :
  Inv st -> loop_exit st = Returns st' u -> Inv st'.
Proof.
  intros [Hsz Hsl Hb Hn Hs He]. unfold loop_exit.
  destruct (at_pc st) eqn:Hpc; try discriminate.
  - destruct He as (Hbuf & Hi & Ho & Hni & Hoc & Hlc); [discriminate|].
    rewrite Hoc. intros H; injection H as <-.
    constructor; cbn; auto; try discriminate.
    intros _; repeat split; auto.
  - destruct He as (Hbuf & Hi & Ho & Hni & Hoc & Hlc); [discriminate|].
    rewrite Hlc. intros H; injection H as <-.
    constructor; cbn; auto; try discriminate.
    intros _; repeat split; auto.
Qed.

Lemma Inv_exec (a : action) (st st' : state) (o : obs) :
  Inv st -> exec a st = Returns st' o -> Inv st'.
Proof.
  intros HI. destruct a as [v | | | | c |]; cbn.
  - destruct (In_send v st) as [st1 u| |] eqn:E; try discriminate.
    intros H; injection H as <- _.
    apply In_send_returns in E as (_ & Hpc & Hin & ->).
    apply Inv_iteration; auto. apply Pre_recv_open; auto. congruence.
  - destruct (Out_recv st) as [st1 [b ok]| |] eqn:E; try discriminate.
    intros H; injection H as <- _.
    apply Out_recv_returns in E as [(_ & _ & Hpc & _ & -> & _) | (_ & _ & -> & _)]; auto.
    apply Inv_iteration; auto. apply Pre_send_buffer; auto.
  - destruct (Len st) as [st1 n| |] eqn:E; try discriminate.
    intros H; injection H as <- _.
    apply Len_returns in E as [(_ & Hpc & -> & _) | (_ & -> & _)]; auto.
    apply Inv_iteration; auto. apply Pre_send_length; auto.
  - destruct (Close st) as [st1 u| |] eqn:E; try discriminate.
    intros H; injection H as <- _.
    apply Close_returns in E as (_ & ->). now apply Inv_Close.
  - destruct (loop_select c st) as [st1 u| |] eqn:E; try discriminate.
    intros H; injection H as <- _. eapply Inv_loop_select; eauto.
  - destruct (loop_exit st) as [st1 u| |] eqn:E; try discriminate.
    intros H; injection H as <- _. eapply Inv_loop_exit; eauto.
Qed.

(** *** Schedules *)

Lemma run_cons (a : action) (tr : list action) (st st2 : state) (os : list obs) :
  run (a :: tr) st = Returns st2 os ->
  exists st1 o os', exec a st = Returns st1 o /\ run tr st1 = Returns st2 os' /\
                    os = o :: os'.
Proof.
  cbn [run]. destruct (exec a st) as [st1 o| |]; try discriminate.
  destruct (run tr st1) as [st2' os'| |] eqn:Hr; try discriminate.
  intros H; injection H as <- <-.
  exists st1, o, os'. auto.
Qed.

Lemma run_app (tr1 tr2 : list action) (st st2 : state) (os : list obs) :
  run (tr1 ++ tr2) st = Returns st2 os ->
  exists st1 os1 os2, run tr1 st = Returns st1 os1 /\ run tr2 st1 = Returns st2 os2 /\
                      os = os1 ++ os2.
Proof.
  revert st os. induction tr1 as [|a tr1 IH]; intros st os H.
  - exists st, [], os. auto.
  - rewrite <- app_comm_cons in H.
    apply run_cons in H as (sa & o & os' & Ha & Hr & ->).
    apply IH in Hr as (st1 & os1 & os2 & H1 & H2 & ->).
    exists st1, (o :: os1), os2. cbn. rewrite Ha, H1. auto.
Qed.

Lemma Inv_run (tr : list action) (st st' : state) (os : list obs) :
  Inv st -> run tr st = Returns st' os -> Inv st'.
Proof.
  revert st os. induction tr as [|a tr IH]; intros st os HI H.
  - injection H as <- _. exact HI.
  - apply run_cons in H as (st1 & o & os' & Ha & Hr & _).
    eapply IH; [|exact Hr]. eapply Inv_exec; eauto.
Qed.

Lemma run_new_inv (sz : BufferCap) (tr : list action) (st : state) (os : list obs) :
  run_new sz tr = Returns st os ->
  exists st0, NewBatchingChannel sz = Returns st0 tt /\ Inv st0 /\
              run tr st0 = Returns st os.
Proof.
  unfold run_new.
  destruct (NewBatchingChannel sz) as [st0 []| |] eqn:E; try discriminate.
  intros H. exists st0. split; [reflexivity|]. split; [|exact H].
  eapply Inv_new; eauto.
Qed.

Lemma Inv_run_new (sz : BufferCap) (tr : list action) (st : state) (os : list obs) :
  run_new sz tr = Returns st os -> Inv st.
Proof.
  intros H. apply run_new_inv in H as (st0 & _ & HI & Hr).
  eapply Inv_run; eauto.
Qed.

(** *** What an iteration leaves alone *)

Ltac frame_iteration :=
  intros; unfold iteration, loop_head, readiness;
  repeat match goal with
         | |- context [if ?b then _ else _] => destruct b
         end; reflexivity.

Lemma size_iteration (c : select_case) (st : state) :
  size (iteration c st) = size st.
Proof. destruct c; frame_iteration. Qed.

Lemma input_closed_iteration (c : select_case) (st : state) :
  input_closed (iteration c st) = input_closed st.
Proof. destruct c; frame_iteration. Qed.

Lemma output_closed_iteration (c : select_case) (st : state) :
  output_closed (iteration c st) = output_closed st.
Proof. destruct c; frame_iteration. Qed.

Lemma length_closed_iteration (c : select_case) (st : state) :
  length_closed (iteration c st) = length_closed st.
Proof. destruct c; frame_iteration. Qed.

Lemma buffer_iteration (c : select_case) (st : state) :
  buffer (iteration c st) =
  if faults c st then buffer st else buffer (select_commit c st).
Proof. destruct c; frame_iteration. Qed.

Lemma nextInput_iteration (c : select_case) (st : state) :
  nextInput (iteration c st) =
  if faults c st then nextInput st else nextInput (select_commit c st).
Proof. destruct c; frame_iteration. Qed.

(** On a state of the invariant, recomputing the readiness changes
    nothing: the locals already are what lines 80-90 make them. *)
Lemma iteration_send_length (st : state) :
  Inv st -> at_pc st = at_select -> iteration send_length st = st.
Proof.
  intros HI Hpc. unfold iteration.
  rewrite (Inv_no_fault st send_length HI Hpc).
  destruct HI as [Hsz Hsl Hb Hn Hs He].
  destruct (Hs Hpc) as (Hoc & Hlc & Hout & Hinp & Hlc').
  clear Hs He.
  destruct st as [b sz ic oc lc i o ni p]; cbn in *; subst.
  unfold loop_head, readiness, bounded, loop_cond, set_output, set_input, set_pc in *;
    cbn in *.
  destruct (len b =? 0); cbn in *;
    [| destruct (negb (sz =? BufferCaps.Infinity) && (len b >=? sz)); cbn in * ];
    subst; cbn in *; try rewrite Hlc'; try reflexivity.
Qed.

Lemma size_exec (a : action) (st st' : state) (o : obs) :
  exec a st = Returns st' o -> size st' = size st.
Proof.
  destruct a as [v | | | | c |]; cbn.
  - destruct (In_send v st) as [st1 u| |] eqn:E; try discriminate.
    intros H; injection H as <- _.
    apply In_send_returns in E as (_ & _ & _ & ->). apply size_iteration.
  - destruct (Out_recv st) as [st1 [b ok]| |] eqn:E; try discriminate.
    intros H; injection H as <- _.
    apply Out_recv_returns in E as [(_ & _ & _ & _ & -> & _) | (_ & _ & -> & _)]; auto.
    apply size_iteration.
  - destruct (Len st) as [st1 n| |] eqn:E; try discriminate.
    intros H; injection H as <- _.
    apply Len_returns in E as [(_ & _ & -> & _) | (_ & -> & _)]; auto.
    apply size_iteration.
  - destruct (Close st) as [st1 u| |] eqn:E; try discriminate.
    intros H; injection H as <- _.
    apply Close_returns in E as (_ & ->). reflexivity.
  - destruct (loop_select c st) as [st1 u| |] eqn:E; try discriminate.
    intros H; injection H as <- _.
    apply loop_select_returns in E as (_ & _ & ->). apply size_iteration.
  - unfold loop_exit.
    destruct (at_pc st); try discriminate;
      [destruct (output_closed st) | destruct (length_closed st)];
      intros H; injection H as <- _; reflexivity.
Qed.

Lemma size_run (tr : list action) (st st' : state) (os : list obs) :
  run tr st = Returns st' os -> size st' = size st.
Proof.
  revert st os. induction tr as [|a tr IH]; intros st os H.
  - injection H as <- _. reflexivity.
  - apply run_cons in H as (st1 & o & os' & Ha & Hr & _).
    rewrite (IH _ _ Hr). eapply size_exec; eauto.
Qed.

Lemma size_new (sz : BufferCap) (st : state) (u : unit) :
  NewBatchingChannel sz = Returns st u -> size st = sz.
Proof.
  unfold NewBatchingChannel.
  destruct (sz =? BufferCaps.None); [discriminate|].
  destruct ((sz <? 0) && negb (sz =? BufferCaps.Infinity)); [discriminate|].
  intros H; injection H as <-. reflexivity.
Qed.

Lemma size_run_new (sz : BufferCap) (tr : list action) (st : state) (os : list obs) :
  run_new sz tr = Returns st os -> size st = sz.
Proof.
  intros H. apply run_new_inv in H as (st0 & H0 & _ & Hr).
  rewrite (size_run _ _ _ _ Hr). eapply size_new; eauto.
Qed.

(** Every observation of a schedule was made by one step from a state of
    the invariant with the same capacity. *)
Lemma run_obs (tr : list action) (st st' : state) (os : list obs) (o : obs) :
  Inv st -> run tr st = Returns st' os -> In o os ->
  exists a st1 st2, Inv st1 /\ size st1 = size st /\ exec a st1 = Returns st2 o.
Proof.
  revert st os. induction tr as [|a tr IH]; intros st os HI H Hin.
  - injection H as _ <-. destruct Hin.
  - apply run_cons in H as (st1 & o1 & os' & Ha & Hr & ->).
    destruct Hin as [<- | Hin].
    + exists a, st, st1. auto.
    + destruct (IH st1 os' (Inv_exec _ _ _ _ HI Ha) Hr Hin)
        as (a' & s1 & s2 & HI1 & Hsz & He).
      exists a', s1, s2. split; [exact HI1|]. split; [|exact He].
      rewrite Hsz. eapply size_exec; eauto.
Qed.

(** A batch is observed only by a receive that took the whole buffer. *)
Lemma exec_batch (a : action) (st st' : state) (b : slice) :
  exec a st = Returns st' (o_batch b true) ->
  a = a_recv /\ Out_recv st = Returns st' (b, true).
Proof.
  destruct a as [v | | | | c |]; cbn.
  - destruct (In_send v st) as [st1 u| |]; discriminate.
  - destruct (Out_recv st) as [st1 [b' ok]| |]; try discriminate.
    intros H; injection H as <- <- <-. auto.
  - destruct (Len st) as [st1 n| |]; discriminate.
  - destruct (Close st) as [st1 u| |]; discriminate.
  - destruct (loop_select c st) as [st1 u| |]; discriminate.
  - destruct (loop_exit st) as [st1 u| |]; discriminate.
Qed.

(** A completed receive took the whole buffer, which was not empty, and
    left a [nil] buffer behind. *)
Lemma Out_recv_batch (st st' : state) (b : slice) :
  Inv st -> Out_recv st = Returns st' (b, true) ->
  b = buffer st /\ buffer st' = None /\ 0 < len b /\ b <> None.
Proof.
  intros HI H.
  apply Out_recv_returns in H as [(_ & Hoc & Hpc & Hout & -> & ->) | (? & _)];
    [|discriminate].
  rewrite buffer_iteration, (Inv_no_fault st send_buffer HI Hpc). cbn.
  destruct HI as [Hsz Hsl Hb Hn Hs He].
  destruct (Hs Hpc) as (_ & _ & Hout' & _).
  rewrite Hout in Hout'.
  pose proof (len_nonneg (buffer st)).
  destruct (len (buffer st) =? 0) eqn:E0; [discriminate|]. apply Z.eqb_neq in E0.
  repeat split; auto; [lia|].
  intros Hnil. rewrite Hnil in E0. cbn in E0. congruence.
Qed.

(** *** The values submitted and the values delivered *)

Lemma exec_history (a : action) (st st' : state) (o : obs) :
  exec a st = Returns st' o ->
  elems (buffer st) ++ sent [a] = List.concat (batches [o]) ++ elems (buffer st').
Proof.
  destruct a as [v | | | | c |]; cbn.
  - destruct (In_send v st) as [st1 u| |] eqn:E; try discriminate.
    intros H; injection H as <- <-.
    apply In_send_returns in E as (_ & _ & _ & ->).
    rewrite buffer_iteration. cbn. now rewrite elems_append.
  - destruct (Out_recv st) as [st1 [b ok]| |] eqn:E; try discriminate.
    intros H; injection H as <- <-.
    apply Out_recv_returns in E
      as [(-> & Hoc & _ & Hout & -> & ->) | (-> & _ & -> & ->)].
    + rewrite buffer_iteration. cbn. rewrite Hout. cbn. rewrite Hoc. cbn.
      now rewrite !app_nil_r.
    + cbn. now rewrite app_nil_r.
  - destruct (Len st) as [st1 n| |] eqn:E; try discriminate.
    intros H; injection H as <- <-.
    apply Len_returns in E as [(_ & _ & -> & _) | (_ & -> & _)];
      rewrite ?buffer_iteration; cbn; rewrite ?app_nil_r; auto.
    now destruct (length_closed st).
  - destruct (Close st) as [st1 u| |] eqn:E; try discriminate.
    intros H; injection H as <- <-.
    apply Close_returns in E as (_ & ->). cbn. now rewrite app_nil_r.
  - destruct (loop_select c st) as [st1 u| |] eqn:E; try discriminate.
    intros H; injection H as <- <-.
    apply loop_select_returns in E as (_ & Hr & ->).
    rewrite buffer_iteration, app_nil_r.
    destruct c; cbn in *; try discriminate; auto.
    + now rewrite Hr.
    + now rewrite Hr.
  - unfold loop_exit.
    destruct (at_pc st); try discriminate;
      [destruct (output_closed st) | destruct (length_closed st)];
      intros H; injection H as <- <-; cbn; now rewrite app_nil_r.
Qed.

Lemma sent_cons (a : action) (tr : list action) : sent (a :: tr) = sent [a] ++ sent tr.
Proof. destruct a; cbn; auto. Qed.

Lemma sent_app (tr1 tr2 : list action) : sent (tr1 ++ tr2) = sent tr1 ++ sent tr2.
Proof.
  induction tr1 as [|a tr1 IH]; [reflexivity|].
  rewrite <- app_comm_cons, sent_cons, (sent_cons a tr1), IH. apply app_assoc.
Qed.

Lemma batches_cons (o : obs) (os : list obs) :
  batches (o :: os) = batches [o] ++ batches os.
Proof. destruct o as [|b [|]|n]; cbn; auto. Qed.

Lemma run_history (tr : list action) (st st' : state) (os : list obs) :
  run tr st = Returns st' os ->
  elems (buffer st) ++ sent tr = List.concat (batches os) ++ elems (buffer st').
Proof.
  revert st os. induction tr as [|a tr IH]; intros st os H.
  - injection H as <- <-. cbn. now rewrite app_nil_r.
  - apply run_cons in H as (st1 & o & os' & Ha & Hr & ->).
    rewrite sent_cons, batches_cons, List.concat_app, app_assoc.
    rewrite (exec_history _ _ _ _ Ha), <- !app_assoc.
    f_equal. apply IH, Hr.
Qed.

Lemma buffer_new (sz : BufferCap) (st : state) (u : unit) :
  NewBatchingChannel sz = Returns st u -> buffer st = None.
Proof.
  unfold NewBatchingChannel.
  destruct (sz =? BufferCaps.None); [discriminate|].
  destruct ((sz <? 0) && negb (sz =? BufferCaps.Infinity)); [discriminate|].
  intros H; injection H as <-. reflexivity.
Qed.

Lemma run_new_history (sz : BufferCap) (tr : list action) (st : state) (os : list obs) :
  run_new sz tr = Returns st os ->
  List.concat (batches os) ++ elems (buffer st) = sent tr.
Proof.
  intros H. apply run_new_inv in H as (st0 & H0 & _ & Hr).
  apply run_history in Hr. rewrite (buffer_new _ _ _ H0) in Hr. cbn in Hr. auto.
Qed.

(** *** Once [ch.input] is closed *)

Lemma input_closed_exec (a : action) (st st' : state) (o : obs) :
  exec a st = Returns st' o -> input_closed st = true ->
  input_closed st' = true /\ sent [a] = [].
Proof.
  destruct a as [v | | | | c |]; cbn.
  - unfold In_send. intros H Hc. rewrite Hc in H. discriminate.
  - destruct (Out_recv st) as [st1 [b ok]| |] eqn:E; try discriminate.
    intros H; injection H as <- _.
    apply Out_recv_returns in E as [(_ & _ & _ & _ & -> & _) | (_ & _ & -> & _)];
      rewrite ?input_closed_iteration; auto.
  - destruct (Len st) as [st1 n| |] eqn:E; try discriminate.
    intros H; injection H as <- _.
    apply Len_returns in E as [(_ & _ & -> & _) | (_ & -> & _)];
      rewrite ?input_closed_iteration; auto.
  - unfold Close. intros H Hc. rewrite Hc in H. discriminate.
  - destruct (loop_select c st) as [st1 u| |] eqn:E; try discriminate.
    intros H; injection H as <- _.
    apply loop_select_returns in E as (_ & _ & ->).
    rewrite input_closed_iteration; auto.
  - unfold loop_exit.
    destruct (at_pc st); try discriminate;
      [destruct (output_closed st) | destruct (length_closed st)];
      intros H; injection H as <- _; auto.
Qed.

Lemma input_closed_run (tr : list action) (st st' : state) (os : list obs) :
  run tr st = Returns st' os -> input_closed st = true ->
  input_closed st' = true /\ sent tr = [].
Proof.
  revert st os. induction tr as [|a tr IH]; intros st os H Hc.
  - injection H as <- _. auto.
  - apply run_cons in H as (st1 & o & os' & Ha & Hr & _).
    destruct (input_closed_exec _ _ _ _ Ha Hc) as (Hc1 & Hs1).
    destruct (IH _ _ Hr Hc1) as (Hc2 & Hs2).
    rewrite sent_cons, Hs1, Hs2. auto.
Qed.

Lemma Inv_not_panicked (st : state) : Inv st -> at_pc st <> panicked.
Proof.
  intros [Hsz Hsl Hb Hn Hs He] Hpc.
  destruct He as (_ & _ & _ & _ & H); [congruence|].
  now rewrite Hpc in H.
Qed.

(** ** Construction *)

(** C6: construction with the unbuffered capacity [None] panics, so does
    construction with a negative capacity other than [Infinity];
    construction with a positive capacity or with [Infinity] returns a
    channel whose [Cap()] is the capacity given. *)
Theorem NewBatchingChannel_capacity (sz : BufferCap) :
  (sz = BufferCaps.None ->
   NewBatchingChannel sz =
   Panics "channels: BatchingChannel does not support unbuffered behaviour") /\
  (sz < 0 -> sz <> BufferCaps.Infinity ->
   NewBatchingChannel sz =
   Panics "channels: invalid negative size in NewBatchingChannel") /\
  (0 < sz \/ sz = BufferCaps.Infinity ->
   exists st, NewBatchingChannel sz = Returns st tt /\ Cap st = sz /\
              at_pc st = at_select /\ buffer st = None).
Proof.
  unfold NewBatchingChannel, BufferCaps.None. repeat split.
  - intros ->. reflexivity.
  - intros Hneg Hinf.
    destruct (sz =? 0) eqn:E0; arith; [lia|].
    apply Z.ltb_lt in Hneg. apply Z.eqb_neq in Hinf. rewrite Hneg, Hinf. reflexivity.
  - intros H. pose proof Infinity_negative as Hn.
    assert (E0 : (sz =? 0) = false) by (apply Z.eqb_neq; lia).
    assert (E1 : (sz <? 0) && negb (sz =? BufferCaps.Infinity) = false).
    { destruct H as [H | ->]; [|rewrite Z.eqb_refl, andb_false_r; reflexivity].
      apply andb_false_iff; left; apply Z.ltb_ge; lia. }
    rewrite E0, E1. eexists; split; [reflexivity|]. cbn. auto.
Qed.

(** ** Batches *)

(** C2: with a bounded capacity [sz], along every schedule of submits,
    reads, length queries, closes and steps of the loop, the buffer never
    holds more than [sz] values where the loop selects, and no delivered
    batch has more than [sz] elements. *)
Theorem bounded_batch_size (sz : BufferCap) (tr : list action) (st : state)
    (os : list obs) :
  run_new sz tr = Returns st os ->
  sz <> BufferCaps.Infinity ->
  len (buffer st) <= sz /\
  forall b, In (o_batch b true) os -> len b <= sz.
Proof.
  intros Hrun Hfin. split.
  - pose proof (Inv_run_new _ _ _ _ Hrun) as HI.
    pose proof (size_run_new _ _ _ _ Hrun) as Hsz.
    rewrite <- Hsz in *. now apply (inv_bound st HI).
  - intros b Hin.
    apply run_new_inv in Hrun as (st0 & H0 & HI0 & Hr).
    destruct (run_obs _ _ _ _ _ HI0 Hr Hin) as (a & s1 & s2 & HI1 & Hsz & He).
    apply exec_batch in He as (_ & He).
    apply (Out_recv_batch _ _ _ HI1) in He as (-> & _).
    rewrite (size_new _ _ _ H0) in Hsz.
    rewrite <- Hsz. apply (inv_bound s1 HI1). congruence.
Qed.

(** C3: every batch received from [ch.Out()] before end-of-stream is a
    non-nil slice with at least one element, and the loop offers the send
    on [ch.output] exactly when the buffer is not empty. *)
Theorem delivered_batch_nonempty (sz : BufferCap) (tr : list action) (st : state)
    (os : list obs) :
  run_new sz tr = Returns st os ->
  (forall b, In (o_batch b true) os -> b <> None /\ elems b <> [] /\ 0 < len b) /\
  (output st <> None <-> 0 < len (buffer st)) /\
  (forall st' b, Out_recv st = Returns st' (b, true) -> 0 < len (buffer st)).
Proof.
  intros Hrun. split; [|split].
  - intros b Hin.
    apply run_new_inv in Hrun as (st0 & H0 & HI0 & Hr).
    destruct (run_obs _ _ _ _ _ HI0 Hr Hin) as (a & s1 & s2 & HI1 & Hsz & He).
    apply exec_batch in He as (_ & He).
    apply (Out_recv_batch _ _ _ HI1) in He as (Hb & _ & Hlen & Hnn).
    repeat split; auto.
    intros Hnil. destruct b as [l|]; cbn in *; [subst l; cbn in Hlen; lia | lia].
  - pose proof (Inv_run_new _ _ _ _ Hrun) as [Hsz Hsl Hb Hn Hs He].
    pose proof (len_nonneg (buffer st)) as Hlen.
    destruct (at_pc st) eqn:Hpc.
    + destruct Hs as (_ & _ & Hout & _); [reflexivity|]. rewrite Hout.
      destruct (len (buffer st) =? 0) eqn:E0; arith; split; intros; try congruence; lia.
    + destruct He as (Hbuf & _ & Ho & _); [discriminate|].
      rewrite Hbuf, Ho; cbn; split; intros; [congruence | lia].
    + destruct He as (Hbuf & _ & Ho & _); [discriminate|].
      rewrite Hbuf, Ho; cbn; split; intros; [congruence | lia].
    + destruct He as (Hbuf & _ & Ho & _); [discriminate|].
      rewrite Hbuf, Ho; cbn; split; intros; [congruence | lia].
    + destruct He as (Hbuf & _ & Ho & _); [discriminate|].
      rewrite Hbuf, Ho; cbn; split; intros; [congruence | lia].
  - intros st' b H.
    pose proof (Inv_run_new _ _ _ _ Hrun) as HI.
    apply (Out_recv_batch _ _ _ HI) in H as (-> & _ & Hlen & _). exact Hlen.
Qed.

(** ** The length query *)

(** C8: a completed [Len()] returns the number of values in the buffer and
    leaves the whole state as it was: buffer, capacity, the closed flags of
    the three channels and the locals of the loop. *)
Theorem Len_observes (sz : BufferCap) (tr : list action) (st st' : state)
    (os : list obs) (n : Z) :
  run_new sz tr = Returns st os ->
  Len st = Returns st' n ->
  n = len (buffer st) /\ 0 <= n /\ st' = st.
Proof.
  intros Hrun HL.
  pose proof (Inv_run_new _ _ _ _ Hrun) as HI.
  pose proof (len_nonneg (buffer st)) as Hlen.
  apply Len_returns in HL as [(Hlc & Hpc & -> & ->) | (Hlc & -> & ->)].
  - repeat split; auto. now apply iteration_send_length.
  - destruct HI as [Hsz Hsl Hb Hn Hs He].
    destruct (at_pc st) eqn:Hpc.
    + destruct Hs as (_ & Hlc' & _); [reflexivity | congruence].
    + destruct He as (_ & _ & _ & _ & _ & Hlc'); [discriminate | congruence].
    + destruct He as (_ & _ & _ & _ & _ & Hlc'); [discriminate | congruence].
    + destruct He as (Hbuf & _); [discriminate|]. rewrite Hbuf. cbn. auto with zarith.
    + destruct He as (_ & _ & _ & _ & []); discriminate.
Qed.

(** ** Capacity reached *)

Lemma at_capacity_locals (st : state) :
  Inv st -> size st <> BufferCaps.Infinity -> size st <= len (buffer st) ->
  at_pc st = at_select /\ input st = None /\ output st = Some ch_output /\
  output_closed st = false.
Proof.
  intros [Hsz Hsl Hb Hn Hs He] Hfin Hfull.
  assert (Hpos : 0 < len (buffer st)) by (destruct Hsz; [congruence | lia]).
  assert (Hpc : at_pc st = at_select).
  { destruct (at_pc st) eqn:Hpc; auto;
      destruct He as (Hbuf & _); try discriminate;
      rewrite Hbuf in Hpos; cbn in Hpos; lia. }
  destruct (Hs Hpc) as (Hoc & _ & Hout & Hinp & _).
  unfold bounded in Hinp.
  destruct (len (buffer st) =? 0) eqn:E0; arith; [lia|].
  destruct (size st =? BufferCaps.Infinity) eqn:E1; arith; [congruence|].
  destruct (len (buffer st) >=? size st) eqn:E2; arith; [|lia].
  cbn in Hinp. auto.
Qed.

Lemma at_capacity_exec (a : action) (st st' : state) (o : obs) :
  Inv st -> size st <> BufferCaps.Infinity -> size st <= len (buffer st) ->
  exec a st = Returns st' o ->
  (exists b, o = o_batch b true) \/ (buffer st' = buffer st /\ sent [a] = []).
Proof.
  intros HI Hfin Hfull He.
  destruct (at_capacity_locals st HI Hfin Hfull) as (Hpc & Hin & Hout & Hoc).
  pose proof (exec_history _ _ _ _ He) as Hh.
  destruct a as [v | | | | c |]; cbn in He.
  - destruct (In_send v st) as [st1 u| |] eqn:E; try discriminate.
    apply In_send_returns in E as (_ & _ & Hin' & _). congruence.
  - destruct (Out_recv st) as [st1 [b ok]| |] eqn:E; try discriminate.
    injection He as <- <-.
    apply Out_recv_returns in E as [(-> & _) | (_ & Hoc' & _)]; [eauto | congruence].
  - destruct (Len st) as [st1 n| |] eqn:E; try discriminate.
    injection He as <- <-. right.
    apply Len_returns in E as [(_ & _ & -> & _) | (_ & -> & _)]; auto.
    rewrite buffer_iteration. cbn. now destruct (length_closed st).
  - destruct (Close st) as [st1 u| |] eqn:E; try discriminate.
    injection He as <- <-. right.
    apply Close_returns in E as (_ & ->). auto.
  - destruct (loop_select c st) as [st1 u| |] eqn:E; try discriminate.
    injection He as <- <-. right.
    apply loop_select_returns in E as (_ & Hr & ->).
    pose proof (Inv_no_fault st c HI Hpc) as Hf.
    destruct c; cbn in Hr, Hf; try congruence.
    rewrite Hin in Hr. discriminate.
  - unfold loop_exit in He. rewrite Hpc in He. discriminate.
Qed.

Lemma at_capacity_run (tr : list action) (st st' : state) (os : list obs) :
  Inv st -> size st <> BufferCaps.Infinity -> size st <= len (buffer st) ->
  run tr st = Returns st' os -> batches os = [] ->
  sent tr = [] /\ buffer st' = buffer st.
Proof.
  revert st os. induction tr as [|a tr IH]; intros st os HI Hfin Hfull Hr Hb.
  - injection Hr as <- _. auto.
  - apply run_cons in Hr as (st1 & o & os' & Ha & Hr & ->).
    rewrite batches_cons in Hb. apply app_eq_nil in Hb as (Hb1 & Hb2).
    destruct (at_capacity_exec _ _ _ _ HI Hfin Hfull Ha) as [(b & ->) | (Hbuf & Hs)];
      [discriminate|].
    pose proof (Inv_exec _ _ _ _ HI Ha) as HI1.
    pose proof (size_exec _ _ _ _ Ha) as Hsz1.
    assert (Hfin1 : size st1 <> BufferCaps.Infinity) by congruence.
    assert (Hfull1 : size st1 <= len (buffer st1)) by (rewrite Hsz1, Hbuf; auto).
    destruct (IH st1 os' HI1 Hfin1 Hfull1 Hr Hb2) as (Hs2 & Hbuf2).
    rewrite sent_cons, Hs, Hs2, Hbuf2, Hbuf. auto.
Qed.

(** C7: with a bounded capacity, when the buffer holds at least as many
    values as the capacity, the loop's [input] is [nil] and its [output] is
    [ch.output]: no send on [ch.In()] completes (it blocks, or panics when
    the channel is closed), a receive on [ch.Out()] completes with the
    whole buffer, and along any schedule in which no batch is delivered no
    value is accepted and the buffer stays as it is. *)
Theorem at_capacity_only_reads (sz : BufferCap) (tr : list action) (st : state)
    (os : list obs) :
  run_new sz tr = Returns st os ->
  sz <> BufferCaps.Infinity ->
  sz <= len (buffer st) ->
  input st = None /\ output st = Some ch_output /\
  (forall v, In_send v st = Blocks \/ In_send v st = Panics "send on closed channel") /\
  (exists st', Out_recv st = Returns st' (buffer st, true) /\ buffer st' = None) /\
  (forall tr2 st2 os2,
      run tr2 st = Returns st2 os2 -> batches os2 = [] ->
      sent tr2 = [] /\ buffer st2 = buffer st).
Proof.
  intros Hrun Hfin Hfull.
  pose proof (Inv_run_new _ _ _ _ Hrun) as HI.
  pose proof (size_run_new _ _ _ _ Hrun) as Hsz. rewrite <- Hsz in *. clear Hsz Hrun.
  destruct (at_capacity_locals st HI Hfin Hfull) as (Hpc & Hin & Hout & Hoc).
  repeat split; auto.
  - intros v. unfold In_send. rewrite Hpc, Hin. destruct (input_closed st); auto.
  - unfold Out_recv. rewrite Hoc, Hpc, Hout. eexists; split; [reflexivity|].
    rewrite buffer_iteration, (Inv_no_fault st send_buffer HI Hpc). reflexivity.
  - eapply at_capacity_run; eauto.
  - eapply at_capacity_run; eauto.
Qed.

(** ** Close *)

Lemma exec_close_closed (st st' : state) (o : obs) :
  exec a_close st = Returns st' o -> input_closed st' = true.
Proof.
  cbn. destruct (Close st) as [st1 u| |] eqn:E; try discriminate.
  intros H; injection H as <- _.
  apply Close_returns in E as (_ & ->). reflexivity.
Qed.

(** C9: once [Close()] has returned, at every later point of every
    schedule a send on [ch.In()] panics in the sender (send on closed
    channel) and so produces no new state; no submit completes after the
    close, so every value delivered or buffered was submitted before it;
    the loop is not stopped by a panic and its invariant holds. *)
Theorem send_after_Close (sz : BufferCap) (tr1 tr2 : list action) (st : state)
    (os : list obs) (v : V) :
  run_new sz (tr1 ++ a_close :: tr2) = Returns st os ->
  In_send v st = Panics "send on closed channel" /\
  exec (a_send v) st = Panics "send on closed channel" /\
  sent tr2 = [] /\
  List.concat (batches os) ++ elems (buffer st) = sent tr1 /\
  at_pc st <> panicked /\ Inv st.
Proof.
  intros Hrun.
  pose proof (Inv_run_new _ _ _ _ Hrun) as HI.
  pose proof (run_new_history _ _ _ _ Hrun) as Hh.
  apply run_new_inv in Hrun as (st0 & H0 & HI0 & Hr).
  apply run_app in Hr as (st1 & os1 & os2 & Hr1 & Hr2 & ->).
  apply run_cons in Hr2 as (st2 & o & os' & Hc & Hr2 & ->).
  apply exec_close_closed in Hc.
  destruct (input_closed_run _ _ _ _ Hr2 Hc) as (Hcl & Hs2).
  assert (Hsend : In_send v st = Panics "send on closed channel").
  { unfold In_send. now rewrite Hcl. }
  split; [exact Hsend|]. split; [cbn; now rewrite Hsend|].
  split; [exact Hs2|]. split; [|split; [now apply Inv_not_panicked | exact HI]].
  rewrite Hh, sent_app. cbn. rewrite Hs2. apply app_nil_r.
Qed.

(** ** Termination of the loop *)

Lemma returned_exec (a : action) (st st' : state) (o : obs) :
  Inv st -> at_pc st = returned -> exec a st = Returns st' o -> st' = st.
Proof.
  intros [Hsz Hsl Hb Hn Hs He] Hpc.
  destruct He as (_ & _ & _ & Hni & Hcl); [congruence|].
  rewrite Hpc in Hcl. destruct Hcl as (Hoc & Hlc).
  destruct Hn as [Hn | (_ & Hic)]; [congruence|].
  destruct a as [v | | | | c |]; cbn.
  - unfold In_send. rewrite Hic. discriminate.
  - unfold Out_recv. rewrite Hoc. intros H; injection H as <- _. reflexivity.
  - unfold Len. rewrite Hlc. intros H; injection H as <- _. reflexivity.
  - unfold Close. rewrite Hic. discriminate.
  - unfold loop_select. rewrite Hpc. discriminate.
  - unfold loop_exit. rewrite Hpc. discriminate.
Qed.

Lemma returned_run (tr : list action) (st st' : state) (os : list obs) :
  Inv st -> at_pc st = returned -> run tr st = Returns st' os -> st' = st.
Proof.
  revert st os. induction tr as [|a tr IH]; intros st os HI Hpc H.
  - injection H as <- _. reflexivity.
  - apply run_cons in H as (st1 & o & os' & Ha & Hr & _).
    apply (returned_exec _ _ _ _ HI Hpc) in Ha. subst st1. eapply IH; eauto.
Qed.

Lemma Inv_input (st : state) (i : chan) :
  Inv st -> input st = Some i -> i = ch_input.
Proof.
  intros [Hsz Hsl Hb Hn Hs He] Hi.
  destruct (at_pc st) eqn:Hpc;
    try (destruct He as (_ & Hin & _); [discriminate | congruence]).
  destruct Hs as (_ & _ & _ & Hinp & _); [reflexivity|].
  rewrite Hinp in Hi.
  destruct (len (buffer st) =? 0);
    [| destruct (bounded st && (len (buffer st) >=? size st)); [discriminate|] ];
    destruct Hn as [Hn | (Hn & _)]; congruence.
Qed.

Lemma Inv_left_loop (st : state) :
  Inv st -> at_pc st <> at_select -> input_closed st = true /\ buffer st = None.
Proof.
  intros [Hsz Hsl Hb Hn Hs He] Hpc.
  destruct (He Hpc) as (Hbuf & _ & _ & Hni & _).
  destruct Hn as [Hn | (_ & Hic)]; [congruence | auto].
Qed.

Lemma Inv_in_loop (st : state) :
  Inv st -> input_closed st = false \/ 0 < len (buffer st) -> at_pc st = at_select.
Proof.
  intros HI Hor.
  destruct (at_pc st) eqn:Hpc; auto;
    destruct (Inv_left_loop st HI) as (Hic & Hbuf); try congruence;
    rewrite Hbuf in Hor; cbn in Hor; destruct Hor; try congruence; lia.
Qed.

(** Closed and empty: left alone, the loop sees the close, leaves the
    [for] and closes [ch.output] and [ch.length]. *)
Lemma loop_alone_terminates (st : state) :
  Inv st -> input_closed st = true -> len (buffer st) = 0 ->
  at_pc (loop_alone 3 st) = returned /\
  output_closed (loop_alone 3 st) = true /\
  length_closed (loop_alone 3 st) = true /\
  buffer (loop_alone 3 st) = None.
Proof.
  intros [Hsz Hsl Hb Hn Hs He] Hic Hlen.
  pose proof (len_zero_nil _ Hsl Hlen) as Hnil.
  destruct st as [b sz ic oc lc i o ni p]; cbn in *; subst.
  destruct p.
  - destruct Hs as (-> & -> & -> & -> & Hlc); [reflexivity|].
    clear He. unfold loop_cond in Hlc; cbn in Hlc.
    destruct Hn as [-> | (-> & _)]; [|discriminate].
    cbn. auto.
  - destruct He as (_ & -> & -> & -> & -> & ->); [discriminate|]. cbn. auto.
  - destruct He as (_ & -> & -> & -> & -> & ->); [discriminate|]. cbn. auto.
  - destruct He as (_ & -> & -> & -> & -> & ->); [discriminate|]. cbn. auto.
  - destruct He as (_ & _ & _ & _ & []); discriminate.
Qed.

(** Open, or not empty: left alone, the loop stays in its [select] and
    closes nothing. *)
Lemma loop_alone_stays (n : nat) (st : state) :
  Inv st -> input_closed st = false \/ 0 < len (buffer st) ->
  at_pc (loop_alone n st) = at_select /\
  output_closed (loop_alone n st) = false /\
  length_closed (loop_alone n st) = false /\
  buffer (loop_alone n st) = buffer st.
Proof.
  revert st. induction n as [|n IH]; intros st HI Hor.
  - pose proof (Inv_in_loop st HI Hor) as Hpc.
    destruct (inv_select st HI Hpc) as (Hoc & Hlc & _). cbn. auto.
  - pose proof (Inv_in_loop st HI Hor) as Hpc.
    destruct (inv_select st HI Hpc) as (Hoc & Hlc & _).
    cbn [loop_alone]. rewrite Hpc.
    destruct (loop_select recv_closed st) as [st1 u| |] eqn:E; auto.
    pose proof (Inv_loop_select _ _ _ _ HI E) as HI1.
    apply loop_select_returns in E as (_ & Hr & ->).
    cbn in Hr. destruct (input st) as [i|] eqn:Hi; [|discriminate].
    pose proof (Inv_input st i HI Hi). subst i. cbn in Hr.
    assert (Hbuf : buffer (iteration recv_closed st) = buffer st).
    { rewrite buffer_iteration. reflexivity. }
    destruct Hor as [Hor | Hor]; [congruence|].
    destruct (IH (iteration recv_closed st) HI1) as (H1 & H2 & H3 & H4).
    { right. now rewrite Hbuf. }
    rewrite H4. auto.
Qed.

(** C5: after [Close()], values still in the buffer are delivered by a
    receive as a normal batch; the loop leaves its [for] only with
    [ch.input] closed and the buffer empty, and in that situation, left
    alone, it does leave it and closes [ch.output] and [ch.length], while
    in every other situation it stays in the [select] with both open;
    [ch.output] and [ch.length] are closed only after the loop has left the
    [for]; and a receive reports end-of-stream only when the buffer is
    empty, [ch.input] is closed and every submitted value was delivered. *)
Theorem Close_drains (sz : BufferCap) (tr : list action) (st : state)
    (os : list obs) :
  run_new sz tr = Returns st os ->
  (0 < len (buffer st) ->
   exists st', Out_recv st = Returns st' (buffer st, true) /\ buffer st' = None) /\
  (at_pc st <> at_select -> input_closed st = true /\ buffer st = None) /\
  (input_closed st = true -> len (buffer st) = 0 ->
   at_pc (loop_alone 3 st) = returned /\
   output_closed (loop_alone 3 st) = true /\
   length_closed (loop_alone 3 st) = true) /\
  (input_closed st = false \/ 0 < len (buffer st) ->
   forall n, at_pc (loop_alone n st) = at_select /\
             output_closed (loop_alone n st) = false /\
             length_closed (loop_alone n st) = false) /\
  (output_closed st = true \/ length_closed st = true ->
   at_pc st <> at_select /\ input_closed st = true /\ buffer st = None) /\
  (forall st' b, Out_recv st = Returns st' (b, false) ->
   b = None /\ st' = st /\ input_closed st = true /\ buffer st = None /\
   List.concat (batches os) = sent tr).
Proof.
  intros Hrun.
  pose proof (Inv_run_new _ _ _ _ Hrun) as HI.
  pose proof (run_new_history _ _ _ _ Hrun) as Hh.
  pose proof (Inv_left_loop st HI) as Hexit.
  assert (Hclosed : output_closed st = true \/ length_closed st = true ->
                    at_pc st <> at_select).
  { intros Hor Hpc. destruct (inv_select st HI Hpc) as (Hoc & Hlc & _).
    destruct Hor; congruence. }
  split; [|split; [|split; [|split; [|split]]]].
  - intros Hpos.
    pose proof (Inv_in_loop st HI (or_intror Hpos)) as Hpc.
    destruct (inv_select st HI Hpc) as (Hoc & _ & Hout & _).
    destruct (len (buffer st) =? 0) eqn:E0; arith; [lia|].
    unfold Out_recv. rewrite Hoc, Hpc, Hout.
    eexists; split; [reflexivity|].
    rewrite buffer_iteration, (Inv_no_fault st send_buffer HI Hpc). reflexivity.
  - exact Hexit.
  - intros Hic Hlen.
    destruct (loop_alone_terminates st HI Hic Hlen) as (H1 & H2 & H3 & _). auto.
  - intros Hor n.
    destruct (loop_alone_stays n st HI Hor) as (H1 & H2 & H3 & _). auto.
  - intros Hor. specialize (Hclosed Hor). destruct (Hexit Hclosed). auto.
  - intros st' b H.
    apply Out_recv_returns in H as [(? & _) | (_ & Hoc & -> & ->)]; [discriminate|].
    destruct (Hexit (Hclosed (or_introl Hoc))) as (Hic & Hbuf).
    rewrite Hbuf in Hh. cbn in Hh. rewrite app_nil_r in Hh. auto 6.
Qed.

(** C10: once the loop has returned (the channel was closed and drained),
    [Len()] returns 0 at once and changes nothing, and it keeps doing so
    after any further completed operations; an open channel whose buffer is
    empty answers [Len()] with 0 as well, so the answer does not tell the
    two apart. *)
Theorem Len_after_return (sz : BufferCap) (tr : list action) (st : state)
    (os : list obs) :
  run_new sz tr = Returns st os ->
  (at_pc st = returned ->
   Len st = Returns st 0 /\ input_closed st = true /\ buffer st = None /\
   length_closed st = true /\
   forall tr2 st2 os2, run tr2 st = Returns st2 os2 -> Len st2 = Returns st2 0) /\
  (at_pc st = at_select -> len (buffer st) = 0 ->
   length_closed st = false /\ Len st = Returns st 0).
Proof.
  intros Hrun. pose proof (Inv_run_new _ _ _ _ Hrun) as HI. split.
  - intros Hpc.
    destruct HI as [Hsz Hsl Hb Hn Hs He].
    destruct He as (Hbuf & _ & _ & Hni & Hcl); [congruence|].
    rewrite Hpc in Hcl. destruct Hcl as (Hoc & Hlc).
    destruct Hn as [Hn | (_ & Hic)]; [congruence|].
    assert (HL : Len st = Returns st 0) by (unfold Len; now rewrite Hlc).
    repeat split; auto.
    intros tr2 st2 os2 Hr.
    apply returned_run in Hr; auto; [now subst st2|].
    apply (Inv_run_new _ _ _ _ Hrun).
  - intros Hpc Hlen.
    destruct (inv_select st HI Hpc) as (_ & Hlc & _).
    split; [exact Hlc|].
    unfold Len. rewrite Hlc, Hpc, Hlen.
    now rewrite (iteration_send_length st HI Hpc).
Qed.

(** ** Order of delivery *)

Lemma Out_recv_nonempty (st : state) :
  Inv st -> 0 < len (buffer st) ->
  Out_recv st = Returns (iteration send_buffer st) (buffer st, true) /\
  buffer (iteration send_buffer st) = None.
Proof.
  intros HI Hpos.
  pose proof (Inv_in_loop st HI (or_intror Hpos)) as Hpc.
  destruct (inv_select st HI Hpc) as (Hoc & _ & Hout & _).
  destruct (len (buffer st) =? 0) eqn:E0; arith; [lia|].
  unfold Out_recv. rewrite Hoc, Hpc, Hout. split; [reflexivity|].
  rewrite buffer_iteration, (Inv_no_fault st send_buffer HI Hpc). reflexivity.
Qed.

Lemma Out_recv_empty (st : state) :
  Inv st -> output_closed st = false -> len (buffer st) = 0 ->
  Out_recv st = Blocks.
Proof.
  intros HI Hoc Hlen. unfold Out_recv. rewrite Hoc.
  destruct (at_pc st) eqn:Hpc; auto.
  destruct (inv_select st HI Hpc) as (_ & _ & Hout & _).
  rewrite Hlen in Hout. cbn in Hout. now rewrite Hout.
Qed.

(** C4: the batches delivered so far, one after the other, followed by
    what the buffer holds, are exactly the values submitted so far in the
    order of submission (so a batch is in submission order, and no value
    is in two batches or delivered twice); and of two consecutive
    deliveries the second is exactly the values submitted after the first
    was handed off. *)
Theorem batches_in_submission_order (sz : BufferCap) (tr1 : list action)
    (st1 : state) (os1 : list obs) :
  run_new sz tr1 = Returns st1 os1 ->
  List.concat (batches os1) ++ elems (buffer st1) = sent tr1 /\
  forall st2 b1 tr2 st3 os2 st4 b2,
    Out_recv st1 = Returns st2 (b1, true) ->
    run tr2 st2 = Returns st3 os2 ->
    batches os2 = [] ->
    Out_recv st3 = Returns st4 (b2, true) ->
    b1 = buffer st1 /\ buffer st2 = None /\
    elems b2 = sent tr2 /\ buffer st4 = None.
Proof.
  intros Hrun. split; [now apply run_new_history with sz|].
  intros st2 b1 tr2 st3 os2 st4 b2 H1 Hr Hb H2.
  pose proof (Inv_run_new _ _ _ _ Hrun) as HI1.
  assert (HI2 : Inv st2).
  { apply (Inv_exec a_recv st1 st2 (o_batch b1 true)); auto. cbn. now rewrite H1. }
  pose proof (Inv_run _ _ _ _ HI2 Hr) as HI3.
  apply (Out_recv_batch _ _ _ HI1) in H1 as (-> & Hnil & _).
  apply (Out_recv_batch _ _ _ HI3) in H2 as (-> & Hnil' & _).
  apply run_history in Hr. rewrite Hnil, Hb in Hr. cbn in Hr. auto.
Qed.

(** ** Unbounded capacity *)

Lemma In_send_unbounded (v : V) (st : state) :
  Inv st -> size st = BufferCaps.Infinity -> input_closed st = false ->
  In_send v st = Returns (iteration (recv_open v) st) tt.
Proof.
  intros HI Hsz Hic.
  pose proof (Inv_in_loop st HI (or_introl Hic)) as Hpc.
  destruct (inv_select st HI Hpc) as (_ & _ & _ & Hin & _).
  unfold bounded in Hin. rewrite Hsz, Z.eqb_refl in Hin. cbn in Hin.
  assert (Hni : nextInput st = Some ch_input).
  { destruct (inv_next st HI) as [Hn | (_ & Hc)]; [auto | congruence]. }
  assert (Hi : input st = Some ch_input).
  { rewrite Hin. now destruct (len (buffer st) =? 0). }
  unfold In_send. now rewrite Hic, Hpc, Hi.
Qed.

Lemma run_sends_unbounded (l : list V) (st : state) :
  Inv st -> size st = BufferCaps.Infinity -> input_closed st = false ->
  exists st' os,
    run (map a_send l) st = Returns st' os /\ batches os = [] /\
    Inv st' /\ input_closed st' = false /\ output_closed st' = output_closed st.
Proof.
  revert st. induction l as [|v l IH]; intros st HI Hsz Hic.
  - exists st, []. cbn. auto.
  - pose proof (In_send_unbounded v st HI Hsz Hic) as Hs.
    set (st1 := iteration (recv_open v) st) in *.
    assert (HI1 : Inv st1).
    { apply (Inv_exec (a_send v) st st1 o_unit); auto. cbn. now rewrite Hs. }
    destruct (IH st1 HI1) as (st' & os & Hr & Hb & HI' & Hic' & Hoc').
    { unfold st1. now rewrite size_iteration. }
    { unfold st1. now rewrite input_closed_iteration. }
    exists st', (o_unit :: os). cbn [map run exec]. rewrite Hs, Hr.
    split; [reflexivity|]. split; [exact Hb|]. split; [exact HI'|].
    split; [exact Hic'|].
    rewrite Hoc'. unfold st1. apply output_closed_iteration.
Qed.

Lemma sent_map_send (l : list V) : sent (map a_send l) = l.
Proof. induction l as [|v l IH]; cbn; congruence. Qed.

Lemma drain_blocked (n : nat) (st : state) :
  Out_recv st = Blocks -> drain n st = ([], st).
Proof. intros H. destruct n; cbn; [|rewrite H]; reflexivity. Qed.

(** C1 (amended): a completed receive takes the whole buffer as one batch
    and leaves a [nil] buffer; and when a non-empty sequence of values is
    submitted to a channel of capacity [Infinity] and one reader then
    receives for as long as it can, all the submits complete and the
    reader gets exactly one batch, the submitted values in order. *)
Theorem unbounded_one_batch :
  (forall sz tr st os st' b,
      run_new sz tr = Returns st os ->
      Out_recv st = Returns st' (b, true) ->
      b = buffer st /\ buffer st' = None) /\
  (forall l : list V, l <> [] -> one_batch l).
Proof.
  split.
  - intros sz tr st os st' b Hrun H.
    pose proof (Inv_run_new _ _ _ _ Hrun) as HI.
    apply (Out_recv_batch _ _ _ HI) in H as (-> & Hnil & _). auto.
  - intros l Hl. unfold one_batch.
    destruct (NewBatchingChannel BufferCaps.Infinity) as [st0 []| |] eqn:E0;
      try discriminate.
    pose proof (Inv_new _ _ E0) as HI0.
    pose proof (size_new _ _ _ E0) as Hsz0.
    pose proof (buffer_new _ _ _ E0) as Hb0.
    assert (Hic0 : input_closed st0 = false) by (injection E0 as <-; reflexivity).
    assert (Hoc0 : output_closed st0 = false) by (injection E0 as <-; reflexivity).
    destruct (run_sends_unbounded l st0 HI0 Hsz0 Hic0)
      as (st & os & Hr & Hb & HI & Hic & Hoc).
    exists st, os. unfold run_new. rewrite E0.
    split; [exact Hr|]. split; [exact Hb|].
    pose proof (run_history _ _ _ _ Hr) as Hh.
    rewrite Hb0, Hb, sent_map_send in Hh. cbn in Hh.
    assert (Hbuf : buffer st = Some l).
    { destruct (buffer st) as [l'|]; cbn in Hh; congruence. }
    assert (Hpos : 0 < len (buffer st)).
    { rewrite Hbuf. cbn. destruct l; [congruence | cbn; lia]. }
    destruct (Out_recv_nonempty st HI Hpos) as (Hrecv & Hnil).
    intros n. exists (iteration send_buffer st).
    split; [|exact Hnil].
    cbn [drain]. rewrite Hrecv, Hbuf.
    rewrite drain_blocked; [reflexivity|].
    apply Out_recv_empty.
    + apply (Inv_exec a_recv st _ (o_batch (buffer st) true)); auto.
      cbn. now rewrite Hrecv.
    + rewrite output_closed_iteration. congruence.
    + now rewrite Hnil.
Qed.

(** ** Further properties of the loop and of the exported operations *)

(** X1: [Cap()] is the capacity given to [NewBatchingChannel], whatever
    was done with the channel since. *)
Theorem Cap_constant (sz : BufferCap) (tr : list action) (st : state)
    (os : list obs) :
  run_new sz tr = Returns st os -> Cap st = sz.
Proof. intros H. unfold Cap. eapply size_run_new; eauto. Qed.

(** X2: the goroutine never panics: it is never stopped by a panic,
    whenever it stands in the [select] none of its send cases is on a
    closed channel, and when it reaches [close(ch.output)] and
    [close(ch.length)] the channel to close is still open. *)
Theorem loop_never_panics (sz : BufferCap) (tr : list action) (st : state)
    (os : list obs) :
  run_new sz tr = Returns st os ->
  at_pc st <> panicked /\
  (at_pc st = at_select -> forall c, faults c st = false) /\
  (at_pc st = at_close_output -> output_closed st = false) /\
  (at_pc st = at_close_length -> length_closed st = false).
Proof.
  intros Hrun. pose proof (Inv_run_new _ _ _ _ Hrun) as HI.
  split; [now apply Inv_not_panicked|].
  split; [intros Hpc c; now apply Inv_no_fault|].
  destruct HI as [Hsz Hsl Hb Hn Hs He].
  split; intros Hpc.
  - destruct He as (_ & _ & _ & _ & H); [congruence|]. rewrite Hpc in H. tauto.
  - destruct He as (_ & _ & _ & _ & H); [congruence|]. rewrite Hpc in H. tauto.
Qed.

Lemma Inv_input_open (st : state) :
  Inv st -> input_closed st = false ->
  at_pc st = at_select /\
  input st = (if bounded st && (len (buffer st) >=? size st) then None
              else Some ch_input).
Proof.
  intros HI Hic.
  pose proof (Inv_in_loop st HI (or_introl Hic)) as Hpc.
  split; [exact Hpc|].
  destruct (inv_select st HI Hpc) as (_ & _ & _ & Hin & _).
  assert (Hni : nextInput st = Some ch_input).
  { destruct (inv_next st HI) as [Hn | (_ & Hc)]; [auto | congruence]. }
  rewrite Hin, Hni.
  destruct (len (buffer st) =? 0) eqn:E0; [|reflexivity].
  apply Z.eqb_eq in E0. unfold bounded.
  destruct (inv_size st HI) as [Hsz | Hsz].
  - rewrite Hsz, Z.eqb_refl. reflexivity.
  - destruct (len (buffer st) >=? size st) eqn:E1; arith; [lia|].
    now rewrite andb_false_r.
Qed.

(** X3: what a send on [ch.In()] does is decided by the closed flag, the
    capacity and the buffer length alone: it panics when [ch.input] is
    closed; otherwise it blocks when the capacity is bounded and reached;
    otherwise it completes, with the value at the end of the buffer.  The
    capacity never makes a send fail, and with [Infinity] an open channel
    accepts every send. *)
Theorem In_send_enabled (sz : BufferCap) (tr : list action) (st : state)
    (os : list obs) (v : V) :
  run_new sz tr = Returns st os ->
  In_send v st =
    (if input_closed st then Panics "send on closed channel"
     else if negb (sz =? BufferCaps.Infinity) && (len (buffer st) >=? sz) then Blocks
     else Returns (iteration (recv_open v) st) tt) /\
  buffer (iteration (recv_open v) st) = append (buffer st) v /\
  input_closed (iteration (recv_open v) st) = input_closed st.
Proof.
  intros Hrun. pose proof (Inv_run_new _ _ _ _ Hrun) as HI.
  pose proof (size_run_new _ _ _ _ Hrun) as Hsz.
  split; [|split; [now rewrite buffer_iteration | apply input_closed_iteration]].
  unfold In_send. destruct (input_closed st) eqn:Hic; [reflexivity|].
  destruct (Inv_input_open st HI Hic) as (Hpc & Hin).
  unfold bounded in Hin. rewrite Hsz in Hin. rewrite Hpc, Hin.
  now destruct (negb (sz =? BufferCaps.Infinity) && (len (buffer st) >=? sz)).
Qed.

(** X4: what a receive on [ch.Out()] does is decided by the buffer alone
    until the loop has closed [ch.output]: it blocks on an empty buffer (no
    empty batch, no early end-of-stream) and completes with the whole
    buffer otherwise; once [ch.output] is closed it reports end-of-stream
    and changes nothing. *)
Theorem Out_recv_enabled (sz : BufferCap) (tr : list action) (st : state)
    (os : list obs) :
  run_new sz tr = Returns st os ->
  Out_recv st =
    (if output_closed st then Returns st (None, false)
     else if 0 <? len (buffer st)
          then Returns (iteration send_buffer st) (buffer st, true)
          else Blocks) /\
  buffer (iteration send_buffer st) = None.
Proof.
  intros Hrun. pose proof (Inv_run_new _ _ _ _ Hrun) as HI.
  pose proof (len_nonneg (buffer st)) as Hlen.
  split.
  - destruct (output_closed st) eqn:Hoc.
    + unfold Out_recv. now rewrite Hoc.
    + destruct (0 <? len (buffer st)) eqn:E; arith.
      * apply (Out_recv_nonempty st HI E).
      * apply Out_recv_empty; auto. lia.
  - rewrite buffer_iteration.
    destruct (at_pc st) eqn:Hpc;
      try (destruct (inv_exit st HI) as (_ & _ & Hout & _); [congruence|];
           cbn; now rewrite Hout).
    now rewrite (Inv_no_fault st send_buffer HI Hpc).
Qed.

Lemma input_closed_exec_iff (a : action) (st st' : state) (o : obs) :
  exec a st = Returns st' o ->
  input_closed st' = true <-> (input_closed st = true \/ a = a_close).
Proof.
  intros He.
  destruct a as [v | | | | c |];
    try (apply exec_close_closed in He; rewrite He; tauto);
    assert (Hsame : input_closed st' = input_closed st);
    try (rewrite Hsame; split; [tauto | intros [H | H]; [exact H | discriminate]]);
    cbn in He.
  - destruct (In_send v st) as [st1 u| |] eqn:E; try discriminate.
    injection He as <- _. apply In_send_returns in E as (_ & _ & _ & ->).
    apply input_closed_iteration.
  - destruct (Out_recv st) as [st1 [b ok]| |] eqn:E; try discriminate.
    injection He as <- _.
    apply Out_recv_returns in E as [(_ & _ & _ & _ & -> & _) | (_ & _ & -> & _)];
      rewrite ?input_closed_iteration; auto.
  - destruct (Len st) as [st1 n| |] eqn:E; try discriminate.
    injection He as <- _.
    apply Len_returns in E as [(_ & _ & -> & _) | (_ & -> & _)];
      rewrite ?input_closed_iteration; auto.
  - destruct (loop_select c st) as [st1 u| |] eqn:E; try discriminate.
    injection He as <- _. apply loop_select_returns in E as (_ & _ & ->).
    apply input_closed_iteration.
  - unfold loop_exit in He.
    destruct (at_pc st); try discriminate;
      [destruct (output_closed st) | destruct (length_closed st)];
      injection He as <- _; reflexivity.
Qed.

Lemma input_closed_run_iff (tr : list action) (st st' : state) (os : list obs) :
  run tr st = Returns st' os ->
  input_closed st' = true <-> (input_closed st = true \/ In a_close tr).
Proof.
  revert st os. induction tr as [|a tr IH]; intros st os H.
  - injection H as <- _. cbn. tauto.
  - apply run_cons in H as (st1 & o & os' & Ha & Hr & _).
    rewrite (IH _ _ Hr), (input_closed_exec_iff _ _ _ _ Ha). cbn.
    split; [intros [[H | H] | H] | intros [H | [H | H]]]; auto.
Qed.

(** X5: [Close()] may be called once.  On a channel that no completed
    [Close()] has touched it returns, closing [ch.input] and leaving the
    buffer, the capacity and the other two channels as they are; after a
    completed [Close()] every further [Close()] panics (close of closed
    channel). *)
Theorem Close_once (sz : BufferCap) (tr : list action) (st : state)
    (os : list obs) :
  run_new sz tr = Returns st os ->
  (In a_close tr -> Close st = Panics "close of closed channel") /\
  (~ In a_close tr ->
   exists st', Close st = Returns st' tt /\ input_closed st' = true /\
               buffer st' = buffer st /\ size st' = size st /\
               output_closed st' = output_closed st /\
               length_closed st' = length_closed st /\ at_pc st' = at_pc st).
Proof.
  intros Hrun.
  apply run_new_inv in Hrun as (st0 & H0 & _ & Hr).
  assert (Hic0 : input_closed st0 = false).
  { unfold NewBatchingChannel in H0.
    destruct (sz =? BufferCaps.None); [discriminate|].
    destruct ((sz <? 0) && negb (sz =? BufferCaps.Infinity)); [discriminate|].
    injection H0 as <-. reflexivity. }
  pose proof (input_closed_run_iff _ _ _ _ Hr) as Hiff.
  split.
  - intros Hin. unfold Close.
    rewrite (proj2 Hiff (or_intror Hin)). reflexivity.
  - intros Hnin.
    assert (Hic : input_closed st = false).
    { destruct (input_closed st); [|reflexivity].
      destruct (proj1 Hiff eq_refl) as [H | H]; [congruence | contradiction]. }
    unfold Close. rewrite Hic. eexists. split; [reflexivity|].
    cbn. auto 7.
Qed.

Lemma len_elems (s : slice) : len s = Z.of_nat (List.length (elems s)).
Proof. destruct s; reflexivity. Qed.

Lemma Len_value (st st' : state) (n : Z) :
  Inv st -> Len st = Returns st' n -> n = len (buffer st).
Proof.
  intros HI HL.
  apply Len_returns in HL as [(_ & _ & _ & ->) | (Hlc & _ & ->)]; [reflexivity|].
  destruct (at_pc st) eqn:Hpc.
  - destruct (inv_select st HI Hpc) as (_ & Hlc' & _). congruence.
  - destruct (inv_exit st HI) as (Hbuf & _); [congruence|]. now rewrite Hbuf.
  - destruct (inv_exit st HI) as (Hbuf & _); [congruence|]. now rewrite Hbuf.
  - destruct (inv_exit st HI) as (Hbuf & _); [congruence|]. now rewrite Hbuf.
  - destruct (inv_exit st HI) as (Hbuf & _); [congruence|]. now rewrite Hbuf.
Qed.

(** X6: the number [Len()] returns is the number of values submitted so
    far minus the number of values delivered so far in batches: nothing is
    counted twice or left out; it is never negative and, with a bounded
    capacity, never above the capacity. *)
Theorem Len_counts (sz : BufferCap) (tr : list action) (st st' : state)
    (os : list obs) (n : Z) :
  run_new sz tr = Returns st os ->
  Len st = Returns st' n ->
  n = Z.of_nat (List.length (sent tr))
      - Z.of_nat (List.length (List.concat (batches os))) /\
  0 <= n /\
  (sz <> BufferCaps.Infinity -> n <= sz).
Proof.
  intros Hrun HL.
  pose proof (Inv_run_new _ _ _ _ Hrun) as HI.
  pose proof (size_run_new _ _ _ _ Hrun) as Hsz.
  pose proof (run_new_history _ _ _ _ Hrun) as Hh.
  rewrite (Len_value _ _ _ HI HL).
  pose proof (len_nonneg (buffer st)) as Hlen.
  split; [|split; [exact Hlen|]].
  - rewrite <- Hh, length_app, len_elems. lia.
  - intros Hfin. rewrite <- Hsz in *. now apply (inv_bound st HI).
Qed.

(** X7: the length case of the [select] is never switched off: while the
    loop stands in the [select], [Len()] completes, whatever the buffer
    and the capacity; it blocks only between the end of the [for] and
    [close(ch.length)], and from then on it returns 0. *)
Theorem Len_served (sz : BufferCap) (tr : list action) (st : state)
    (os : list obs) :
  run_new sz tr = Returns st os ->
  Len st =
    match at_pc st with
    | at_close_output | at_close_length => Blocks
    | _ => Returns st (len (buffer st))
    end.
Proof.
  intros Hrun. pose proof (Inv_run_new _ _ _ _ Hrun) as HI.
  unfold Len. destruct (at_pc st) eqn:Hpc.
  - destruct (inv_select st HI Hpc) as (_ & Hlc & _). rewrite Hlc.
    now rewrite (iteration_send_length st HI Hpc).
  - destruct (inv_exit st HI) as (_ & _ & _ & _ & H); [congruence|].
    rewrite Hpc in H. destruct H as (_ & Hlc). now rewrite Hlc.
  - destruct (inv_exit st HI) as (_ & _ & _ & _ & H); [congruence|].
    rewrite Hpc in H. destruct H as (_ & Hlc). now rewrite Hlc.
  - destruct (inv_exit st HI) as (Hbuf & _ & _ & _ & H); [congruence|].
    rewrite Hpc in H. destruct H as (_ & Hlc). now rewrite Hlc, Hbuf.
  - destruct (Inv_not_panicked st HI Hpc).
Qed.

(** Every batch a schedule delivers is non-empty and, with a bounded
    capacity, holds at most that many values. *)
Lemma batches_Forall (tr : list action) (st st' : state) (os : list obs) :
  Inv st -> run tr st = Returns st' os ->
  Forall (fun l : list V =>
            l <> [] /\
            (size st <> BufferCaps.Infinity -> Z.of_nat (List.length l) <= size st))
         (batches os).
Proof.
  revert st os. induction tr as [|a tr IH]; intros st os HI H.
  - injection H as _ <-. constructor.
  - apply run_cons in H as (st1 & o & os' & Ha & Hr & ->).
    pose proof (IH st1 os' (Inv_exec _ _ _ _ HI Ha) Hr) as Hrest.
    rewrite (size_exec _ _ _ _ Ha) in Hrest.
    destruct o as [|b [|]|n]; cbn; auto.
    constructor; [|exact Hrest].
    apply exec_batch in Ha as (_ & Ha).
    apply (Out_recv_batch _ _ _ HI) in Ha as (-> & _ & Hpos & _).
    rewrite len_elems in Hpos. split.
    + intros Hnil. rewrite Hnil in Hpos. cbn in Hpos. lia.
    + intros Hfin. rewrite <- len_elems. now apply (inv_bound st HI).
Qed.

Lemma concat_length_bounds (k : Z) (ls : list (list V)) :
  Forall (fun l : list V => l <> [] /\ (Z.of_nat (List.length l) <= k)) ls ->
  (List.length ls <= List.length (List.concat ls))%nat /\
  Z.of_nat (List.length (List.concat ls)) <= k * Z.of_nat (List.length ls).
Proof.
  induction 1 as [|l ls (Hne & Hk) _ (IH1 & IH2)]; cbn [List.concat List.length].
  - split; lia.
  - rewrite length_app. destruct l as [|x l]; [congruence|]. cbn [List.length] in *.
    split; nia.
Qed.

Lemma concat_length_nonempty (ls : list (list V)) :
  Forall (fun l : list V => l <> []) ls ->
  (List.length ls <= List.length (List.concat ls))%nat.
Proof.
  induction 1 as [|l ls Hne _ IH]; cbn [List.concat List.length]; [lia|].
  rewrite length_app. destruct l as [|x l]; [congruence|]. cbn [List.length]. lia.
Qed.

(** X8: how many batches a schedule delivers: never more than the number
    of values submitted (no batch is empty), and with a bounded capacity
    [sz] enough of them that [sz] values per batch, plus what the buffer
    still holds, account for every submitted value: [m] values need at
    least [m / sz] batches, rounded up, to be delivered in full. *)
Theorem batch_count_bounds (sz : BufferCap) (tr : list action) (st : state)
    (os : list obs) :
  run_new sz tr = Returns st os ->
  (List.length (batches os) <= List.length (sent tr))%nat /\
  (sz <> BufferCaps.Infinity ->
   Z.of_nat (List.length (sent tr))
   <= sz * Z.of_nat (List.length (batches os)) + len (buffer st)).
Proof.
  intros Hrun.
  pose proof (run_new_history _ _ _ _ Hrun) as Hh.
  apply run_new_inv in Hrun as (st0 & H0 & HI0 & Hr).
  pose proof (batches_Forall _ _ _ _ HI0 Hr) as HF.
  rewrite (size_new _ _ _ H0) in HF.
  rewrite <- Hh, length_app, len_elems. split.
  - assert (Hne : Forall (fun l : list V => l <> []) (batches os)).
    { eapply Forall_impl; [|exact HF]. cbn. tauto. }
    apply concat_length_nonempty in Hne. lia.
  - intros Hfin.
    assert (Hk : Forall (fun l : list V =>
                           l <> [] /\ Z.of_nat (List.length l) <= sz) (batches os)).
    { eapply Forall_impl; [|exact HF]. cbn. intros l (H1 & H2). auto. }
    apply concat_length_bounds in Hk as (_ & Hk). lia.
Qed.

(** With [ch.input] closed and nothing in the buffer no batch is
    delivered any more. *)
Lemma closed_empty_no_batch (tr : list action) (st st' : state) (os : list obs) :
  Inv st -> input_closed st = true -> buffer st = None ->
  run tr st = Returns st' os ->
  batches os = [] /\ buffer st' = None.
Proof.
  revert st os. induction tr as [|a tr IH]; intros st os HI Hic Hbuf H.
  - injection H as <- <-. auto.
  - apply run_cons in H as (st1 & o & os' & Ha & Hr & ->).
    pose proof (Inv_exec _ _ _ _ HI Ha) as HI1.
    destruct (input_closed_exec _ _ _ _ Ha Hic) as (Hic1 & Hs).
    pose proof (exec_history _ _ _ _ Ha) as Hh.
    rewrite Hbuf, Hs in Hh. cbn [elems app] in Hh.
    symmetry in Hh. apply app_eq_nil in Hh as (Hc & He).
    assert (Hbuf1 : buffer st1 = None).
    { apply len_zero_nil; [apply (inv_slice st1 HI1)|].
      rewrite len_elems, He. reflexivity. }
    assert (Hb : batches [o] = []).
    { destruct o as [|b [|]|n]; cbn; auto.
      apply exec_batch in Ha as (_ & Ha).
      apply (Out_recv_batch _ _ _ HI) in Ha as (-> & _ & Hpos & _).
      rewrite Hbuf in Hpos. cbn in Hpos. lia. }
    destruct (IH st1 os' HI1 Hic1 Hbuf1 Hr) as (Hb' & Hbuf').
    rewrite batches_cons, Hb, Hb'. auto.
Qed.

Lemma closed_at_most_one_batch (tr : list action) (st st' : state) (os : list obs) :
  Inv st -> input_closed st = true ->
  run tr st = Returns st' os ->
  (List.length (batches os) <= 1)%nat.
Proof.
  revert st os. induction tr as [|a tr IH]; intros st os HI Hic H.
  - injection H as _ <-. cbn. lia.
  - apply run_cons in H as (st1 & o & os' & Ha & Hr & ->).
    pose proof (Inv_exec _ _ _ _ HI Ha) as HI1.
    destruct (input_closed_exec _ _ _ _ Ha Hic) as (Hic1 & _).
    destruct o as [|b [|]|n]; cbn [batches]; try (eapply IH; eauto).
    apply exec_batch in Ha as (_ & Ha).
    apply (Out_recv_batch _ _ _ HI) in Ha as (_ & Hnil & _).
    destruct (closed_empty_no_batch _ _ _ _ HI1 Hic1 Hnil Hr) as (Hb & _).
    rewrite Hb. cbn. lia.
Qed.

(** X9: after a completed [Close()] at most one more batch is delivered,
    whatever the callers and the loop do; no value is submitted any more,
    and that batch together with what is still in the buffer is what the
    buffer held when [Close()] returned. *)
Theorem after_Close_one_batch (sz : BufferCap) (tr1 tr2 : list action)
    (st1 st1' st2 : state) (os1 os2 : list obs) (o : obs) :
  run_new sz tr1 = Returns st1 os1 ->
  exec a_close st1 = Returns st1' o ->
  run tr2 st1' = Returns st2 os2 ->
  (List.length (batches os2) <= 1)%nat /\
  sent tr2 = [] /\
  List.concat (batches os2) ++ elems (buffer st2) = elems (buffer st1).
Proof.
  intros Hrun Hc Hr.
  pose proof (Inv_run_new _ _ _ _ Hrun) as HI1.
  pose proof (Inv_exec _ _ _ _ HI1 Hc) as HI1'.
  pose proof (exec_close_closed _ _ _ Hc) as Hic.
  destruct (input_closed_run _ _ _ _ Hr Hic) as (_ & Hs).
  pose proof (run_history _ _ _ _ Hr) as Hh.
  pose proof (exec_history _ _ _ _ Hc) as Hh1.
  assert (Ho : batches [o] = []).
  { destruct o as [|b [|]|n]; cbn; auto.
    apply exec_batch in Hc as (Hc & _). discriminate. }
  rewrite Ho in Hh1. cbn in Hh1. rewrite app_nil_r in Hh1.
  rewrite Hs, app_nil_r in Hh.
  split; [eapply closed_at_most_one_batch; eauto|].
  split; [exact Hs|]. congruence.
Qed.

Lemma run_app_intro (tr1 tr2 : list action) (st st1 st2 : state)
    (os1 os2 : list obs) :
  run tr1 st = Returns st1 os1 -> run tr2 st1 = Returns st2 os2 ->
  run (tr1 ++ tr2) st = Returns st2 (os1 ++ os2).
Proof.
  revert st os1. induction tr1 as [|a tr1 IH]; intros st os1 H1 H2.
  - injection H1 as <- <-. exact H2.
  - apply run_cons in H1 as (sa & o & os' & Ha & Hr & ->).
    cbn [app run]. rewrite Ha, (IH _ _ Hr H2). reflexivity.
Qed.

Lemma batches_app (os1 os2 : list obs) :
  batches (os1 ++ os2) = batches os1 ++ batches os2.
Proof.
  induction os1 as [|o os1 IH]; [reflexivity|].
  rewrite <- app_comm_cons, batches_cons, (batches_cons o os1), IH. apply app_assoc.
Qed.

(** X10: the channel can be shut down from every state it can be in, and
    the goroutine does not outlive it: after [shutdown_calls] ([Close()] if
    not yet closed, one receive if values wait), which all complete, the
    loop by itself returns within three steps, and the batches delivered
    before and during the shutdown are exactly the submitted values. *)
Theorem shutdown_returns (sz : BufferCap) (tr : list action) (st : state)
    (os : list obs) :
  run_new sz tr = Returns st os ->
  exists st2 os2,
    run (shutdown_calls st) st = Returns st2 os2 /\
    at_pc (loop_alone 3 st2) = returned /\
    output_closed (loop_alone 3 st2) = true /\
    length_closed (loop_alone 3 st2) = true /\
    List.concat (batches os) ++ List.concat (batches os2) = sent tr.
Proof.
  intros Hrun.
  pose proof (Inv_run_new _ _ _ _ Hrun) as HI.
  pose proof (run_new_history _ _ _ _ Hrun) as Hh.
  pose proof (len_nonneg (buffer st)) as Hlen.
  (* the state after the Close, if any *)
  assert (Hclose : exists st1 os1,
             run (if input_closed st then [] else [a_close]) st = Returns st1 os1 /\
             Inv st1 /\ input_closed st1 = true /\ buffer st1 = buffer st /\
             batches os1 = []).
  { destruct (input_closed st) eqn:Hic.
    - exists st, []. cbn.
      split; [reflexivity|]. split; [exact HI|]. split; [exact Hic|].
      split; reflexivity.
    - exists (close_chan ch_input st), [o_unit].
      cbn. unfold Close. rewrite Hic. cbn.
      split; [reflexivity|]. split; [now apply Inv_Close|].
      split; [reflexivity|]. split; reflexivity. }
  destruct Hclose as (st1 & os1 & Hr1 & HI1 & Hic1 & Hbuf1 & Hb1).
  (* the state after the receive, if any *)
  assert (Hrecv : exists st2 os2,
             run (if 0 <? len (buffer st) then [a_recv] else []) st1 = Returns st2 os2 /\
             Inv st2 /\ input_closed st2 = true /\ buffer st2 = None /\
             List.concat (batches os2) = elems (buffer st)).
  { destruct (0 <? len (buffer st)) eqn:E; arith.
    - rewrite <- Hbuf1 in E.
      destruct (Out_recv_nonempty st1 HI1 E) as (Ho & Hnil).
      assert (He : exec a_recv st1
                   = Returns (iteration send_buffer st1) (o_batch (buffer st1) true)).
      { cbn. now rewrite Ho. }
      exists (iteration send_buffer st1), [o_batch (buffer st1) true].
      cbn [run]. rewrite He.
      split; [reflexivity|]. split; [eapply Inv_exec; eauto|].
      split; [now rewrite input_closed_iteration|]. split; [exact Hnil|].
      cbn. rewrite app_nil_r. now rewrite Hbuf1.
    - exists st1, []. cbn.
      assert (Hnil : buffer st = None).
      { apply len_zero_nil; [apply (inv_slice st HI) | lia]. }
      rewrite Hbuf1, Hnil.
      split; [reflexivity|]. split; [exact HI1|]. split; [exact Hic1|].
      split; reflexivity. }
  destruct Hrecv as (st2 & os2 & Hr2 & HI2 & Hic2 & Hbuf2 & Hb2).
  assert (Hlen2 : len (buffer st2) = 0) by now rewrite Hbuf2.
  destruct (loop_alone_terminates st2 HI2 Hic2 Hlen2) as (H1 & H2 & H3 & _).
  exists st2, (os1 ++ os2). unfold shutdown_calls.
  split; [|split; [exact H1 | split; [exact H2 | split; [exact H3|]]]].
  - exact (run_app_intro _ _ _ _ _ _ _ Hr1 Hr2).
  - assert (Hb : List.concat (batches (os1 ++ os2)) = elems (buffer st)).
    { rewrite batches_app, Hb1. exact Hb2. }
    now rewrite Hb.
Qed.

Lemma In_send_Inv (v : V) (st : state) :
  Inv st ->
  In_send v st =
    (if input_closed st then Panics "send on closed channel"
     else if bounded st && (len (buffer st) >=? size st) then Blocks
     else Returns (iteration (recv_open v) st) tt).
Proof.
  intros HI. unfold In_send. destruct (input_closed st) eqn:Hic; [reflexivity|].
  destruct (Inv_input_open st HI Hic) as (Hpc & Hin). rewrite Hpc, Hin.
  now destruct (bounded st && (len (buffer st) >=? size st)).
Qed.

(** X11: a writer is held back only until the next delivery: on a channel
    whose [ch.input] is open, right after any completed receive of a batch
    a send completes (also when sends were blocked at capacity before) and
    its value starts the next batch. *)
Theorem recv_unblocks_send (sz : BufferCap) (tr : list action) (st st' : state)
    (os : list obs) (b : slice) (v : V) :
  run_new sz tr = Returns st os ->
  input_closed st = false ->
  Out_recv st = Returns st' (b, true) ->
  exists st'', In_send v st' = Returns st'' tt /\ buffer st'' = Some [v].
Proof.
  intros Hrun Hic Ho.
  pose proof (Inv_run_new _ _ _ _ Hrun) as HI.
  assert (HI' : Inv st').
  { apply (Inv_exec a_recv st st' (o_batch b true)); auto. cbn. now rewrite Ho. }
  pose proof (Out_recv_batch _ _ _ HI Ho) as (_ & Hnil & _).
  apply Out_recv_returns in Ho as [(_ & _ & _ & _ & Hst' & _) | (? & _)];
    [|discriminate].
  assert (Hic' : input_closed st' = false).
  { rewrite Hst', input_closed_iteration. exact Hic. }
  rewrite (In_send_Inv v st' HI'), Hic'.
  assert (Hroom : bounded st' && (len (buffer st') >=? size st') = false).
  { rewrite Hnil. cbn [len]. unfold bounded.
    destruct (inv_size st' HI') as [Hs | Hs].
    - rewrite Hs, Z.eqb_refl. reflexivity.
    - destruct (0 >=? size st') eqn:E; arith; [lia | apply andb_false_r]. }
  rewrite Hroom. eexists. split; [reflexivity|].
  rewrite buffer_iteration. cbn. now rewrite Hnil.
Qed.

Lemma run_sends_bounded (l : list V) (st : state) :
  Inv st -> input_closed st = false -> size st <> BufferCaps.Infinity ->
  (len (buffer st) + Z.of_nat (List.length l) <= size st ->
   exists st' os, run (map a_send l) st = Returns st' os /\
                  elems (buffer st') = elems (buffer st) ++ l /\
                  batches os = []) /\
  (size st < len (buffer st) + Z.of_nat (List.length l) ->
   run (map a_send l) st = Blocks).
Proof.
  revert st. induction l as [|v l IH]; intros st HI Hic Hfin.
  - pose proof (inv_bound st HI Hfin) as Hb. cbn [List.length map run]. split.
    + intros _. exists st, []. rewrite app_nil_r. auto.
    + intros H. cbn in H. lia.
  - pose proof (In_send_Inv v st HI) as Hs. rewrite Hic in Hs.
    unfold bounded in Hs.
    destruct (size st =? BufferCaps.Infinity) eqn:E1; arith; [congruence|].
    cbn [negb andb] in Hs.
    pose proof (inv_bound st HI Hfin) as Hb.
    cbn [List.length map run exec]. rewrite Hs.
    destruct (len (buffer st) >=? size st) eqn:E2; arith.
    + (* the capacity is reached: the send blocks *)
      split; [intros H; lia | reflexivity].
    + set (st1 := iteration (recv_open v) st).
      assert (HI1 : Inv st1).
      { apply (Inv_exec (a_send v) st st1 o_unit); auto. cbn. now rewrite Hs. }
      assert (Hic1 : input_closed st1 = false).
      { unfold st1. now rewrite input_closed_iteration. }
      assert (Hsz1 : size st1 = size st) by apply size_iteration.
      assert (Hbuf1 : buffer st1 = append (buffer st) v).
      { unfold st1. now rewrite buffer_iteration. }
      assert (Hfin1 : size st1 <> BufferCaps.Infinity) by congruence.
      destruct (IH st1 HI1 Hic1 Hfin1) as (IHa & IHb).
      rewrite Hbuf1, len_append, Hsz1 in IHa, IHb.
      rewrite elems_append in IHa.
      split; intros H.
      * destruct IHa as (st' & os & Hr & He & Hbs); [lia|].
        exists st', (o_unit :: os). fold st1. rewrite Hr.
        split; [reflexivity|]. split; [|exact Hbs].
        rewrite He, <- app_assoc. reflexivity.
      * fold st1. rewrite IHb; [reflexivity | lia].
Qed.

(** X12: a producer with no reader gets exactly as many values in as the
    capacity: on a new channel of bounded capacity [sz], submitting the
    values of [l] one after the other completes, with [l] in the buffer,
    when [l] has at most [sz] values, and blocks (at the value number
    [sz + 1]) when it has more. *)
Theorem sends_without_reader (sz : BufferCap) (l : list V) :
  0 < sz ->
  (Z.of_nat (List.length l) <= sz ->
   exists st os, run_new sz (map a_send l) = Returns st os /\
                 elems (buffer st) = l /\ batches os = []) /\
  (sz < Z.of_nat (List.length l) -> run_new sz (map a_send l) = Blocks).
Proof.
  intros Hpos. pose proof Infinity_negative as Hneg.
  destruct (NewBatchingChannel sz) as [st0 []| |] eqn:E0.
  - pose proof (Inv_new _ _ E0) as HI0.
    pose proof (size_new _ _ _ E0) as Hsz0.
    pose proof (buffer_new _ _ _ E0) as Hb0.
    assert (Hic0 : input_closed st0 = false).
    { unfold NewBatchingChannel in E0.
      destruct (sz =? BufferCaps.None); [discriminate|].
      destruct ((sz <? 0) && negb (sz =? BufferCaps.Infinity)); [discriminate|].
      injection E0 as <-. reflexivity. }
    assert (Hfin : size st0 <> BufferCaps.Infinity) by lia.
    destruct (run_sends_bounded l st0 HI0 Hic0 Hfin) as (Ha & Hb).
    rewrite Hb0, Hsz0 in Ha, Hb. cbn [len elems app] in Ha, Hb.
    unfold run_new. rewrite E0. split; intros H.
    + destruct Ha as (st & os & Hr & He & Hbs); [lia|]. eauto.
    + apply Hb. lia.
  - exfalso. unfold NewBatchingChannel, BufferCaps.None in E0.
    destruct (sz =? 0) eqn:E; arith; [lia|].
    destruct ((sz <? 0) && negb (sz =? BufferCaps.Infinity)); discriminate.
  - exfalso. unfold NewBatchingChannel, BufferCaps.None in E0.
    destruct (sz =? 0) eqn:E; arith; [lia|].
    destruct (sz <? 0) eqn:E'; arith; [lia|]. discriminate.
Qed.

End BatchingChannel.

Arguments recv_open {V} elem.
Arguments recv_closed {V}.
Arguments send_buffer {V}.
Arguments send_length {V}.
Arguments a_send {V} v.
Arguments a_recv {V}.
Arguments a_len {V}.
Arguments a_close {V}.
Arguments a_select {V} c.
Arguments a_exit {V}.
Arguments o_unit {V}.
Arguments o_batch {V} b ok.
Arguments o_len {V} n.

Ltac evaluated := vm_compute; reflexivity.

(** ** The theorems at concrete schedules

    The payload is [nat]; the schedules are those of the example scenario
    of the documentation (capacity 2, values submitted in pairs). *)

(** The scenario of the documentation: capacity 2; "a" and "b" are
    submitted and received as one batch; "c" is submitted and [Len()] is
    1; "d" is submitted and the batch is "c", "d"; after [Close()] the loop
    sees the close and returns, and the next receive reports
    end-of-stream. *)
Example scenario_capacity_2 :
  exists st,
    run_new string 2
      [a_send "a"%string; a_send "b"%string; a_recv;
       a_send "c"%string; a_len; a_send "d"%string; a_recv;
       a_close; a_select recv_closed; a_exit; a_exit; a_recv; a_len]
    = Returns st
        [o_unit; o_unit; o_batch (Some ["a"%string; "b"%string]) true;
         o_unit; o_len 1; o_unit; o_batch (Some ["c"%string; "d"%string]) true;
         o_unit; o_unit; o_unit; o_unit; o_batch None false; o_len 0]
    /\ at_pc string st = returned.
Proof. eexists. split; vm_compute; reflexivity. Qed.

(** With capacity 2 a third submit does not complete while two values
    wait: the send blocks until a reader takes the batch. *)
Example third_send_blocks :
  run_new nat 2 [a_send 1%nat; a_send 2%nat; a_send 3%nat] = Blocks.
Proof. vm_compute. reflexivity. Qed.

Lemma NewBatchingChannel_capacity_witness :
  NewBatchingChannel nat 0 =
    Panics "channels: BatchingChannel does not support unbuffered behaviour" /\
  NewBatchingChannel nat (-2) =
    Panics "channels: invalid negative size in NewBatchingChannel" /\
  (exists st, NewBatchingChannel nat 3 = Returns st tt /\ Cap nat st = 3 /\
              at_pc nat st = at_select /\ buffer nat st = None) /\
  (exists st, NewBatchingChannel nat BufferCaps.Infinity = Returns st tt /\
              Cap nat st = BufferCaps.Infinity /\
              at_pc nat st = at_select /\ buffer nat st = None).
Proof.
  split; [|split; [|split]].
  - apply (proj1 (NewBatchingChannel_capacity nat 0)). reflexivity.
  - apply (proj1 (proj2 (NewBatchingChannel_capacity nat (-2)))).
    + lia.
    + unfold BufferCaps.Infinity. lia.
  - apply (proj2 (proj2 (NewBatchingChannel_capacity nat 3))). left. lia.
  - apply (proj2 (proj2 (NewBatchingChannel_capacity nat BufferCaps.Infinity))).
    right. reflexivity.
Defined.

Lemma bounded_batch_size_witness :
  exists st os,
    run_new nat 2 [a_send 1%nat; a_send 2%nat; a_recv; a_send 3%nat] = Returns st os /\
    len nat (buffer nat st) <= 2 /\
    forall b, In (o_batch b true) os -> len nat b <= 2.
Proof.
  eexists. eexists. split; [evaluated|].
  apply (bounded_batch_size nat 2 [a_send 1%nat; a_send 2%nat; a_recv; a_send 3%nat]).
  - evaluated.
  - unfold BufferCaps.Infinity. lia.
Defined.

Lemma delivered_batch_nonempty_witness :
  exists st os,
    run_new nat 2 [a_send 1%nat; a_send 2%nat; a_recv; a_send 3%nat; a_recv]
    = Returns st os /\
    (forall b, In (o_batch b true) os ->
               b <> None /\ elems nat b <> [] /\ 0 < len nat b) /\
    (output nat st <> None <-> 0 < len nat (buffer nat st)) /\
    (forall st' b, Out_recv nat st = Returns st' (b, true) ->
                   0 < len nat (buffer nat st)).
Proof.
  eexists. eexists. split; [evaluated|].
  eapply (delivered_batch_nonempty nat 2
            [a_send 1%nat; a_send 2%nat; a_recv; a_send 3%nat; a_recv]).
  evaluated.
Defined.

Lemma Len_observes_witness :
  exists st os st' n,
    run_new nat 2 [a_send 1%nat; a_send 2%nat; a_recv; a_send 3%nat] = Returns st os /\
    Len nat st = Returns st' n /\
    n = 1 /\ n = len nat (buffer nat st) /\ 0 <= n /\ st' = st.
Proof.
  eexists. eexists. eexists. eexists.
  split; [evaluated|]. split; [evaluated|]. split; [reflexivity|].
  eapply (Len_observes nat 2 [a_send 1%nat; a_send 2%nat; a_recv; a_send 3%nat]).
  - evaluated.
  - evaluated.
Defined.

Lemma at_capacity_only_reads_witness :
  exists st os,
    run_new nat 2 [a_send 1%nat; a_send 2%nat] = Returns st os /\
    2 <= len nat (buffer nat st) /\
    input nat st = None /\ output nat st = Some ch_output /\
    (forall v, In_send nat v st = Blocks \/
               In_send nat v st = Panics "send on closed channel") /\
    (exists st', Out_recv nat st = Returns st' (buffer nat st, true) /\
                 buffer nat st' = None) /\
    (forall tr2 st2 os2,
        run nat tr2 st = Returns st2 os2 -> batches nat os2 = [] ->
        sent nat tr2 = [] /\ buffer nat st2 = buffer nat st).
Proof.
  eexists. eexists. split; [evaluated|]. split; [cbn; lia|].
  eapply (at_capacity_only_reads nat 2 [a_send 1%nat; a_send 2%nat]).
  - evaluated.
  - unfold BufferCaps.Infinity. lia.
  - cbn. lia.
Defined.

Lemma send_after_Close_witness :
  exists st os,
    run_new nat 2 ([a_send 1%nat] ++ a_close :: [a_len]) = Returns st os /\
    In_send nat 7%nat st = Panics "send on closed channel" /\
    exec nat (a_send 7%nat) st = Panics "send on closed channel" /\
    sent nat [a_len] = [] /\
    List.concat (batches nat os) ++ elems nat (buffer nat st) = sent nat [a_send 1%nat] /\
    at_pc nat st <> panicked /\ Inv nat st.
Proof.
  eexists. eexists. split; [evaluated|].
  eapply (send_after_Close nat 2 [a_send 1%nat] [a_len]).
  evaluated.
Defined.

Lemma Close_drains_witness :
  exists st os,
    run_new nat 2 [a_send 1%nat; a_close] = Returns st os /\
    input_closed nat st = true /\
    (exists st', Out_recv nat st = Returns st' (Some [1%nat], true) /\
                 buffer nat st' = None) /\
    (forall n, at_pc nat (loop_alone nat n st) = at_select /\
               output_closed nat (loop_alone nat n st) = false /\
               length_closed nat (loop_alone nat n st) = false).
Proof.
  eexists. eexists. split; [evaluated|]. split; [reflexivity|].
  assert (Hrun : run_new nat 2 [a_send 1%nat; a_close]
                 = Returns (mkState nat (Some [1%nat]) 2 true false false
                              (Some ch_input) (Some ch_output) (Some ch_input)
                              at_select)
                           [o_unit; o_unit]) by evaluated.
  pose proof (Close_drains nat 2 [a_send 1%nat; a_close] _ _ Hrun)
    as (Hdeliver & _ & _ & Hstay & _).
  split.
  - apply Hdeliver. cbn. lia.
  - apply Hstay. right. cbn. lia.
Defined.

Lemma Len_after_return_witness :
  exists st os,
    run_new nat 2 [a_send 1%nat; a_close; a_recv; a_select recv_closed; a_exit; a_exit]
    = Returns st os /\
    at_pc nat st = returned /\
    Len nat st = Returns st 0 /\ input_closed nat st = true /\
    buffer nat st = None /\ length_closed nat st = true /\
    forall tr2 st2 os2, run nat tr2 st = Returns st2 os2 -> Len nat st2 = Returns st2 0.
Proof.
  eexists. eexists. split; [evaluated|]. split; [reflexivity|].
  apply (Len_after_return nat 2
           [a_send 1%nat; a_close; a_recv; a_select recv_closed; a_exit; a_exit]
           _ [o_unit; o_unit; o_batch (Some [1%nat]) true; o_unit; o_unit; o_unit]).
  - evaluated.
  - reflexivity.
Defined.

Lemma batches_in_submission_order_witness :
  exists st1 os1 st2 b1 st3 os2 st4 b2,
    run_new nat 2 [a_send 1%nat; a_send 2%nat] = Returns st1 os1 /\
    Out_recv nat st1 = Returns st2 (b1, true) /\
    run nat [a_send 3%nat; a_len; a_send 4%nat] st2 = Returns st3 os2 /\
    batches nat os2 = [] /\
    Out_recv nat st3 = Returns st4 (b2, true) /\
    List.concat (batches nat os1) ++ elems nat (buffer nat st1) = [1%nat; 2%nat] /\
    b1 = buffer nat st1 /\ buffer nat st2 = None /\
    elems nat b2 = [3%nat; 4%nat] /\ buffer nat st4 = None.
Proof.
  do 8 eexists.
  split; [evaluated|]. split; [evaluated|]. split; [evaluated|].
  split; [evaluated|]. split; [evaluated|].
  assert (Hrun : run_new nat 2 [a_send 1%nat; a_send 2%nat]
                 = Returns (mkState nat (Some [1%nat; 2%nat]) 2 false false false
                              None (Some ch_output) (Some ch_input) at_select)
                           [o_unit; o_unit]) by evaluated.
  pose proof (batches_in_submission_order nat 2 [a_send 1%nat; a_send 2%nat]
                _ _ Hrun) as (Hall & Hnext).
  split; [exact Hall|].
  eapply Hnext with (tr2 := [a_send 3%nat; a_len; a_send 4%nat]); evaluated.
Defined.

Lemma unbounded_one_batch_witness :
  one_batch nat [1%nat; 2%nat; 3%nat].
Proof.
  apply (proj2 (unbounded_one_batch nat)). discriminate.
Defined.

(** C1 as first stated, for every sequence: it fails for the empty one.
    With nothing submitted the buffer is [nil], the loop does not offer
    [ch.output], and the reader's first receive blocks: no batch, not one
    empty batch. *)
Lemma unbounded_no_submit_no_batch :
  ~ (forall l : list nat, one_batch nat l).
Proof.
  intros H. destruct (H []) as (st & os & Hr & _ & Hd).
  vm_compute in Hr. injection Hr as <- _.
  destruct (Hd 0%nat) as (st' & Hd0 & _).
  vm_compute in Hd0. discriminate.
Qed.

(** ** The further properties at concrete schedules *)

Lemma Cap_constant_witness :
  exists st os,
    run_new nat 2 [a_send 1%nat; a_recv; a_close] = Returns st os /\ Cap nat st = 2.
Proof.
  eexists. eexists. split; [evaluated|].
  eapply (Cap_constant nat 2 [a_send 1%nat; a_recv; a_close]). evaluated.
Defined.

Lemma loop_never_panics_witness :
  exists st os,
    run_new nat 2 [a_send 1%nat; a_close; a_recv; a_select recv_closed; a_exit]
    = Returns st os /\
    at_pc nat st <> panicked /\
    (at_pc nat st = at_select -> forall c, faults nat c st = false) /\
    (at_pc nat st = at_close_output -> output_closed nat st = false) /\
    (at_pc nat st = at_close_length -> length_closed nat st = false).
Proof.
  eexists. eexists. split; [evaluated|].
  eapply (loop_never_panics nat 2
            [a_send 1%nat; a_close; a_recv; a_select recv_closed; a_exit]).
  evaluated.
Defined.

Lemma In_send_enabled_witness :
  exists st os,
    run_new nat 2 [a_send 1%nat; a_send 2%nat] = Returns st os /\
    In_send nat 3%nat st = Blocks.
Proof.
  eexists. eexists. split; [evaluated|].
  refine (eq_trans (proj1 (In_send_enabled nat 2 [a_send 1%nat; a_send 2%nat]
                             _ [o_unit; o_unit] 3%nat _)) _);
    evaluated.
Defined.

Lemma Out_recv_enabled_witness :
  exists st os,
    run_new nat 2 [a_send 1%nat; a_recv] = Returns st os /\
    Out_recv nat st = Blocks.
Proof.
  eexists. eexists. split; [evaluated|].
  refine (eq_trans (proj1 (Out_recv_enabled nat 2 [a_send 1%nat; a_recv]
                             _ [o_unit; o_batch (Some [1%nat]) true] _)) _);
    evaluated.
Defined.

Lemma Close_once_witness :
  exists st os,
    run_new nat 2 [a_send 1%nat; a_close] = Returns st os /\
    Close nat st = Panics "close of closed channel".
Proof.
  eexists. eexists. split; [evaluated|].
  assert (Hrun : run_new nat 2 [a_send 1%nat; a_close]
                 = Returns (mkState nat (Some [1%nat]) 2 true false false
                              (Some ch_input) (Some ch_output) (Some ch_input)
                              at_select)
                           [o_unit; o_unit]) by evaluated.
  apply (proj1 (Close_once nat 2 [a_send 1%nat; a_close] _ _ Hrun)).
  simpl. auto.
Defined.

Lemma Len_counts_witness :
  exists st os st' n,
    run_new nat 2 [a_send 1%nat; a_send 2%nat; a_recv; a_send 3%nat] = Returns st os /\
    Len nat st = Returns st' n /\
    n = 1 /\
    n = Z.of_nat (List.length
                    (sent nat [a_send 1%nat; a_send 2%nat; a_recv; a_send 3%nat]))
        - Z.of_nat (List.length (List.concat (batches nat os))) /\
    0 <= n /\ (2 <> BufferCaps.Infinity -> n <= 2).
Proof.
  do 4 eexists. split; [evaluated|]. split; [evaluated|]. split; [reflexivity|].
  eapply (Len_counts nat 2 [a_send 1%nat; a_send 2%nat; a_recv; a_send 3%nat]);
    evaluated.
Defined.

Lemma Len_served_witness :
  exists st os,
    run_new nat 2 [a_send 1%nat; a_send 2%nat] = Returns st os /\
    Len nat st = Returns st 2.
Proof.
  eexists. eexists. split; [evaluated|].
  refine (eq_trans (Len_served nat 2 [a_send 1%nat; a_send 2%nat]
                      _ [o_unit; o_unit] _) _);
    evaluated.
Defined.

Lemma batch_count_bounds_witness :
  exists st os,
    run_new nat 2 [a_send 1%nat; a_send 2%nat; a_recv; a_send 3%nat; a_recv; a_send 4%nat]
    = Returns st os /\
    (List.length (batches nat os) <= 4)%nat /\
    (2 <> BufferCaps.Infinity ->
     4 <= 2 * Z.of_nat (List.length (batches nat os)) + len nat (buffer nat st)).
Proof.
  eexists. eexists. split; [evaluated|].
  eapply (batch_count_bounds nat 2
            [a_send 1%nat; a_send 2%nat; a_recv; a_send 3%nat; a_recv; a_send 4%nat]).
  evaluated.
Defined.

Lemma after_Close_one_batch_witness :
  exists st1 os1 st1' o st2 os2,
    run_new nat 2 [a_send 1%nat] = Returns st1 os1 /\
    exec nat a_close st1 = Returns st1' o /\
    run nat [a_len; a_recv; a_select recv_closed; a_exit; a_exit; a_recv] st1'
    = Returns st2 os2 /\
    (List.length (batches nat os2) <= 1)%nat /\
    sent nat [a_len; a_recv; a_select recv_closed; a_exit; a_exit; a_recv] = [] /\
    List.concat (batches nat os2) ++ elems nat (buffer nat st2)
    = elems nat (buffer nat st1).
Proof.
  do 6 eexists. split; [evaluated|]. split; [evaluated|]. split; [evaluated|].
  eapply (after_Close_one_batch nat 2 [a_send 1%nat]
            [a_len; a_recv; a_select recv_closed; a_exit; a_exit; a_recv]);
    evaluated.
Defined.

Lemma shutdown_returns_witness :
  exists st os st2 os2,
    run_new nat 2 [a_send 1%nat; a_send 2%nat; a_recv; a_send 3%nat] = Returns st os /\
    run nat (shutdown_calls nat st) st = Returns st2 os2 /\
    at_pc nat (loop_alone nat 3 st2) = returned /\
    output_closed nat (loop_alone nat 3 st2) = true /\
    length_closed nat (loop_alone nat 3 st2) = true /\
    List.concat (batches nat os) ++ List.concat (batches nat os2)
    = [1%nat; 2%nat; 3%nat].
Proof.
  eexists. eexists.
  assert (Hrun : run_new nat 2 [a_send 1%nat; a_send 2%nat; a_recv; a_send 3%nat]
                 = Returns (mkState nat (Some [3%nat]) 2 false false false
                              (Some ch_input) (Some ch_output) (Some ch_input)
                              at_select)
                           [o_unit; o_unit; o_batch (Some [1%nat; 2%nat]) true; o_unit])
    by evaluated.
  destruct (shutdown_returns nat 2 _ _ _ Hrun) as (st2 & os2 & H).
  exists st2, os2. split; [exact Hrun | exact H].
Defined.

Lemma recv_unblocks_send_witness :
  exists st os st' b st'',
    run_new nat 2 [a_send 1%nat; a_send 2%nat] = Returns st os /\
    In_send nat 3%nat st = Blocks /\
    Out_recv nat st = Returns st' (b, true) /\
    In_send nat 3%nat st' = Returns st'' tt /\ buffer nat st'' = Some [3%nat].
Proof.
  eexists. eexists. eexists. eexists.
  assert (Hrun : run_new nat 2 [a_send 1%nat; a_send 2%nat]
                 = Returns (mkState nat (Some [1%nat; 2%nat]) 2 false false false
                              None (Some ch_output) (Some ch_input) at_select)
                           [o_unit; o_unit]) by evaluated.
  assert (Hrecv : Out_recv nat
                    (mkState nat (Some [1%nat; 2%nat]) 2 false false false
                       None (Some ch_output) (Some ch_input) at_select)
                  = Returns (mkState nat None 2 false false false
                               (Some ch_input) None (Some ch_input) at_select)
                            (Some [1%nat; 2%nat], true)) by evaluated.
  destruct (recv_unblocks_send nat 2 _ _ _ _ _ 3%nat Hrun eq_refl Hrecv)
    as (st'' & Hs & Hb).
  exists st''. split; [exact Hrun|]. split; [evaluated|].
  split; [exact Hrecv|]. split; [exact Hs | exact Hb].
Defined.

Lemma sends_without_reader_witness :
  (exists st os, run_new nat 2 (map a_send [1%nat; 2%nat]) = Returns st os /\
                 elems nat (buffer nat st) = [1%nat; 2%nat] /\ batches nat os = []) /\
  run_new nat 2 (map a_send [1%nat; 2%nat; 3%nat]) = Blocks.
Proof.
  split.
  - apply (proj1 (sends_without_reader nat 2 [1%nat; 2%nat] ltac:(lia))).
    simpl. lia.
  - apply (proj2 (sends_without_reader nat 2 [1%nat; 2%nat; 3%nat] ltac:(lia))).
    simpl. lia.
Defined.
